(** * sputil: the shared-state toolkit of [sputil.hpp]

    A shallow embedding of the four stateful classes of the header
    ([algorithm::LRUCache], [concurrency::ConcurrentQueue],
    [concurrency::RateLimiter], [threading::ThreadPool]) and the properties
    their description states about them, followed by the functions of the
    [array], [string], [algorithm] and [net] namespaces that work on vectors
    and strings. *)

From stdpp Require Import gmap strings list sorting.
From Stdlib Require Import ZArith Lia.

(** ** Outcomes of calls that may throw *)

(** The only exception the four classes throw is [std::runtime_error]. *)
Inductive exception :=
  | runtime_error (what : string).

Inductive outcome (A : Type) :=
  | Returns (a : A)
  | Throws (e : exception).
Arguments Returns {A} a.
Arguments Throws {A} e.

(** ** algorithm::LRUCache *)

Module LRU.

(** A [std::list<T>] is a chain of heap nodes.  A node is modelled by its
    identity (its address) and the key it stores; a [std::list<T>::iterator]
    is the identity of the node it points to.  The front of the Rocq list is
    [items.begin()].  [capacity] is a [size_t] that is only stored and
    compared with a container size, never computed with. *)
Record LRUCache (T : Type) `{Countable T} := mkLRUCache {
  capacity : nat;                (* size_t capacity *)
  items : list (nat * T);        (* std::list<T> items *)
  cache_map : gmap T nat;        (* std::unordered_map<T, iterator> *)
  next_node : nat                (* the allocator: next unused identity *)
}.
Arguments mkLRUCache {T _ _} _ _ _ _.
Arguments capacity {T _ _} _.
Arguments items {T _ _} _.
Arguments cache_map {T _ _} _.
Arguments next_node {T _ _} _.

Section LRUCache.
Context {T : Type} `{Countable T}.

(** [LRUCache(size_t capacity) : capacity(capacity) {}]: no check of the
    argument, nothing can throw. *)
Definition init (cap : nat) : LRUCache T := mkLRUCache cap [] ∅ 0.

Definition new (cap : nat) : outcome (LRUCache T) := Returns (init cap).

(** [items.erase(it)]: unlink the node [it].  (Erasing through an iterator
    that points into no node of the list is undefined in C++; here it changes
    nothing.  On the states the class reaches, [it] always points into the
    list.) *)
Definition list_erase (it : nat) (l : list (nat * T)) : list (nat * T) :=
  filter (λ n, n.1 ≠ it) l.

(** The node an iterator points to. *)
Definition node_at (it : nat) (l : list (nat * T)) : option (nat * T) :=
  snd <$> list_find (λ n, n.1 = it) l.

(** [items.splice(items.begin(), items, it)]: relink the node [it] in front of
    the first node; the node keeps its identity. *)
Definition splice_front (it : nat) (l : list (nat * T)) : list (nat * T) :=
  match node_at it l with
  | Some n => n :: list_erase it l
  | None => l
  end.

(** [items.pop_back()]. *)
Definition pop_back (l : list (nat * T)) : list (nat * T) :=
  take (length l - 1) l.

Definition put (key : T) (c : LRUCache T) : LRUCache T :=
  (* auto it = cache_map.find(key);
     if (it != cache_map.end()) { items.erase(it->second); cache_map.erase(it); } *)
  let '(items1, map1) :=
    match cache_map c !! key with
    | Some it => (list_erase it (items c), delete key (cache_map c))
    | None => (items c, cache_map c)
    end in
  (* items.push_front(key); cache_map[key] = items.begin(); *)
  let node := next_node c in
  let items2 := (node, key) :: items1 in
  let map2 := <[key := node]> map1 in
  (* if (cache_map.size() > capacity)
       { auto last = items.end(); last--; cache_map.erase( *last ); items.pop_back(); } *)
  if decide (capacity c < size map2) then
    match last items2 with
    | Some lst => mkLRUCache (capacity c) (pop_back items2) (delete lst.2 map2) (S node)
    | None => mkLRUCache (capacity c) items2 map2 (S node)   (* items2 is not empty *)
    end
  else mkLRUCache (capacity c) items2 map2 (S node).

Definition get (key : T) (c : LRUCache T) : bool * LRUCache T :=
  match cache_map c !! key with
  | None => (false, c)
  | Some it =>
      (true, mkLRUCache (capacity c) (splice_front it (items c)) (cache_map c) (next_node c))
  end.

Definition contains (key : T) (c : LRUCache T) : bool :=
  bool_decide (is_Some (cache_map c !! key)).

Definition size (c : LRUCache T) : nat := length (items c).

(** The keys in recency order, most recently used first. *)
Definition keys (c : LRUCache T) : list T := (items c).*2.

(** Calls of the public interface and runs of them. *)
Inductive call :=
  | Put (key : T)
  | Get (key : T)
  | Contains (key : T)
  | Size.

Definition step (c : LRUCache T) (o : call) : LRUCache T :=
  match o with
  | Put k => put k c
  | Get k => (get k c).2
  | Contains _ => c
  | Size => c
  end.

Definition run (os : list call) (c : LRUCache T) : LRUCache T := foldl step c os.

(** [put] applied to each key of a list, in order. *)
Definition puts (ks : list T) (c : LRUCache T) : LRUCache T :=
  foldl (λ c k, put k c) c ks.

(** *** Representation invariant

    [linked l m]: the nodes of [l] have distinct identities and distinct keys,
    and [m] maps each key exactly to the node that stores it. *)
Definition linked (l : list (nat * T)) (m : gmap T nat) : Prop :=
  NoDup l.*1 ∧ NoDup l.*2 ∧ ∀ k it, m !! k = Some it ↔ (it, k) ∈ l.

Record wf (c : LRUCache T) : Prop := mkWf {
  wf_linked : linked (items c) (cache_map c);
  wf_fresh : ∀ n, n ∈ items c → n.1 < next_node c;
  wf_bound : length (items c) ≤ capacity c
}.

End LRUCache.

End LRU.

(** ** concurrency::ConcurrentQueue *)

Module Queue.

Section ConcurrentQueue.
Context {T : Type}.

(** The only data member is the [std::queue<T>]; its front is the head of the
    list.  Every member function holds [mutex] for its whole body, so each is
    one atomic step on this state. *)
Record ConcurrentQueue := mkQueue {
  queue : list T
}.

(** What a call of [pop] does in a given state: [condition.wait(lock, pred)]
    lets the caller proceed only when [!queue.empty()] holds; otherwise the
    caller stays parked on the condition variable and the call does not
    return in this state. *)
Inductive pop_result :=
  | Popped (value : T) (q : ConcurrentQueue)
  | Blocked.

Definition new : ConcurrentQueue := mkQueue [].

Definition push (value : T) (q : ConcurrentQueue) : ConcurrentQueue :=
  mkQueue (queue q ++ [value]).

Definition pop (q : ConcurrentQueue) : pop_result :=
  match queue q with
  | [] => Blocked
  | value :: rest => Popped value (mkQueue rest)
  end.

(** [bool try_pop(T& value)]: [None] is the [false] return, which leaves
    [value] untouched. *)
Definition try_pop (q : ConcurrentQueue) : option T * ConcurrentQueue :=
  match queue q with
  | [] => (None, q)
  | value :: rest => (Some value, mkQueue rest)
  end.

Definition empty (q : ConcurrentQueue) : bool :=
  match queue q with [] => true | _ => false end.

Definition size (q : ConcurrentQueue) : nat := length (queue q).

(** The public interface, and the state after a run of calls.  A [Pop] issued
    on an empty queue parks its caller and leaves the state as it is. *)
Inductive call :=
  | Push (value : T)
  | Pop
  | TryPop
  | Empty
  | Size.

Definition step (q : ConcurrentQueue) (c : call) : ConcurrentQueue :=
  match c with
  | Push v => push v q
  | Pop => match pop q with Popped _ q' => q' | Blocked => q end
  | TryPop => (try_pop q).2
  | Empty => q
  | Size => q
  end.

Definition run (cs : list call) (q : ConcurrentQueue) : ConcurrentQueue :=
  foldl step q cs.

Definition pushes (vs : list T) (q : ConcurrentQueue) : ConcurrentQueue :=
  foldl (λ q v, push v q) q vs.

(** [n] calls of [pop] in a row by one consumer: the values in the order
    returned, or [None] when one of the calls blocks. *)
Fixpoint pops (n : nat) (q : ConcurrentQueue) : option (list T * ConcurrentQueue) :=
  match n with
  | 0 => Some ([], q)
  | S n' =>
      match pop q with
      | Blocked => None
      | Popped v q' =>
          match pops n' q' with
          | Some (vs, q'') => Some (v :: vs, q'')
          | None => None
          end
      end
  end.

End ConcurrentQueue.
Arguments ConcurrentQueue T : clear implicits.
Arguments pop_result T : clear implicits.
Arguments call T : clear implicits.

End Queue.

(** ** concurrency::RateLimiter *)

Module Limiter.
Local Open Scope Z_scope.

Section RateLimiter.

(** The period of [std::chrono::steady_clock] is left to the implementation:
    [ticks_per_ms] clock ticks make one millisecond. *)
Variable ticks_per_ms : Z.

Record RateLimiter := mkRateLimiter {
  last_call : Z;      (* steady_clock::time_point, in ticks *)
  min_delay : Z       (* std::chrono::milliseconds *)
}.

(** [RateLimiter(int calls_per_second)], run when the clock reads [now].
    [1000 / calls_per_second] is a division of [int]s: it truncates. *)
Definition new (calls_per_second : Z) (now : Z) : RateLimiter :=
  mkRateLimiter now (1000 ÷ calls_per_second).

(** [acquire()], entered when the clock reads [now].  The result tells whether
    [sleep_for] was called and for how many milliseconds.  [sleep_for] blocks
    for at least the duration asked; [late] is the time that passes on top of
    that before the clock is read the second time. *)
Definition acquire (rl : RateLimiter) (now late : Z) : option Z * RateLimiter :=
  let elapsed := (now - last_call rl) ÷ ticks_per_ms in
  if elapsed <? min_delay rl then
    let d := min_delay rl - elapsed in
    (Some d, mkRateLimiter (now + d * ticks_per_ms + late) (min_delay rl))
  else
    (None, mkRateLimiter (now + late) (min_delay rl)).

(** A run of [acquire] calls, each given by the two quantities the
    environment chooses.  The mutex serializes the calls. *)
Fixpoint grants (rl : RateLimiter) (tr : list (Z * Z)) : list Z :=
  match tr with
  | [] => []
  | (now, late) :: tr' =>
      let rl' := (acquire rl now late).2 in
      last_call rl' :: grants rl' tr'
  end.

(** The clock is monotonic: a call reads it no earlier than the previous call
    did, and time does not run backwards inside a call. *)
Fixpoint monotonic (rl : RateLimiter) (tr : list (Z * Z)) : Prop :=
  match tr with
  | [] => True
  | (now, late) :: tr' =>
      last_call rl ≤ now ∧ 0 ≤ late ∧ monotonic (acquire rl now late).2 tr'
  end.

End RateLimiter.

End Limiter.

(** ** threading::ThreadPool *)

Module Pool.

Section ThreadPool.

(** [std::function<void()>] *)
Variable Task : Type.

(** Where a thread of [workers] stands in its loop. *)
Inductive worker :=
  | Waiting                (* in [condition.wait], or about to enter it *)
  | Running (t : Task)     (* in [task()], the lock released *)
  | Exited.                (* returned from the loop *)

Record ThreadPool := mkThreadPool {
  workers : list worker;
  tasks : list Task;       (* std::queue, front at the head *)
  stop : bool
}.

(** The pool [ThreadPool(size_t threads)] leaves when all its workers have
    been started; the argument is not checked. *)
Definition start (threads : nat) : ThreadPool :=
  mkThreadPool (replicate threads Waiting) [] false.

(** How the constructor ends.  Each round of its loop takes a thread and
    memory from the system: [workers.emplace_back] throws when there is none
    left ([std::system_error] from [std::thread], [std::bad_alloc] from the
    vector), leaving the vector as it was.  When that happens before any
    worker has been started, the exception leaves the constructor.  When
    workers are running already, unwinding destroys [workers] with joinable
    threads in it, and the destructor of a joinable [std::thread] calls
    [std::terminate]. *)
Inductive constructed :=
  | Built (p : ThreadPool)
  | ResourceError
  | Terminated.

(** [can_start] is the number of workers the system can still start. *)
Definition new (can_start threads : nat) : constructed :=
  if decide (threads ≤ can_start) then Built (start threads)
  else if decide (can_start = 0) then ResourceError
  else Terminated.

(** [enqueue(f, args...)]: the packaged task and its future are built before
    the lock is taken; they are not part of the pool. *)
Definition enqueue (f : Task) (p : ThreadPool) : outcome unit * ThreadPool :=
  if stop p then (Throws (runtime_error "enqueue on stopped ThreadPool"), p)
  else (Returns tt, mkThreadPool (workers p) (tasks p ++ [f]) (stop p)).

(** The first block of [~ThreadPool()]; what follows it is [notify_all] and
    the joins, which wait for the workers' own steps. *)
Definition shutdown (p : ThreadPool) : ThreadPool :=
  mkThreadPool (workers p) (tasks p) true.

(** The pool together with the tasks whose call has completed, in order of
    completion. *)
Record world := mkWorld {
  pool : ThreadPool;
  completed : list Task
}.

(** One step of worker [i]: leave the wait and take a task or exit, or finish
    the running task. *)
Definition work (i : nat) (w : world) : world :=
  let p := pool w in
  match workers p !! i with
  | Some Waiting =>
      if stop p || negb (bool_decide (tasks p = [])) then
        match tasks p with
        | [] => mkWorld (mkThreadPool (<[i := Exited]> (workers p)) [] (stop p)) (completed w)
        | t :: rest =>
            mkWorld (mkThreadPool (<[i := Running t]> (workers p)) rest (stop p)) (completed w)
        end
      else w
  | Some (Running t) =>
      mkWorld (mkThreadPool (<[i := Waiting]> (workers p)) (tasks p) (stop p))
              (completed w ++ [t])
  | Some Exited => w
  | None => w
  end.

Inductive event :=
  | Enqueue (f : Task)
  | Work (i : nat)
  | Destroy.

Definition step (w : world) (e : event) : world :=
  match e with
  | Enqueue f => mkWorld (enqueue f (pool w)).2 (completed w)
  | Work i => work i w
  | Destroy => mkWorld (shutdown (pool w)) (completed w)
  end.

Definition run (es : list event) (w : world) : world := foldl step w es.

End ThreadPool.
Arguments Waiting {Task}.
Arguments Exited {Task}.
Arguments Running {Task} t.
Arguments mkThreadPool {Task} _ _ _.
Arguments workers {Task} _.
Arguments tasks {Task} _.
Arguments stop {Task} _.
Arguments start {Task} threads.
Arguments Built {Task} p.
Arguments ResourceError {Task}.
Arguments Terminated {Task}.
Arguments new {Task} can_start threads.
Arguments enqueue {Task} f p.
Arguments shutdown {Task} p.
Arguments mkWorld {Task} _ _.
Arguments pool {Task} _.
Arguments completed {Task} _.
Arguments work {Task} i w.
Arguments Enqueue {Task} f.
Arguments Work {Task} i.
Arguments Destroy {Task}.
Arguments step {Task} w e.
Arguments run {Task} es w.

End Pool.

(** ** Observations on runs *)

Module QueueTrace.
Import Queue.

Section ConcurrentQueue.
Context {T : Type}.

(** The values a run of calls hands to its callers through [pop] and
    [try_pop], in the order the calls take the lock. *)
Fixpoint outputs (cs : list (call T)) (q : ConcurrentQueue T) : list T :=
  match cs with
  | [] => []
  | c :: cs' =>
      match c with
      | Pop =>
          match pop q with
          | Popped v q' => v :: outputs cs' q'
          | Blocked => outputs cs' q
          end
      | TryPop =>
          match try_pop q with
          | (Some v, q') => v :: outputs cs' q'
          | (None, q') => outputs cs' q'
          end
      | _ => outputs cs' (step q c)
      end
  end.

(** The values a run of calls pushes, in order. *)
Definition inputs (cs : list (call T)) : list T :=
  omap (λ c, match c with Push v => Some v | _ => None end) cs.

End ConcurrentQueue.

End QueueTrace.

Module LimiterTrace.
Import Limiter.
Local Open Scope Z_scope.

(** What each [acquire] of a run asks [sleep_for] for, if anything. *)
Fixpoint sleeps (ticks_per_ms : Z) (rl : RateLimiter) (tr : list (Z * Z)) : list (option Z) :=
  match tr with
  | [] => []
  | (now, late) :: tr' =>
      (acquire ticks_per_ms rl now late).1
        :: sleeps ticks_per_ms (acquire ticks_per_ms rl now late).2 tr'
  end.

End LimiterTrace.

Module PoolTrace.
Import Pool.

Section ThreadPool.
Context {Task : Type}.

(** The tasks the workers are executing. *)
Definition running (p : ThreadPool Task) : list Task :=
  omap (λ w, match w with Running t => Some t | _ => None end) (workers p).

(** The tasks a run of events gets into the queue: those whose [enqueue]
    found [stop] unset. *)
Fixpoint accepted (es : list (event Task)) (w : world Task) : list Task :=
  match es with
  | [] => []
  | e :: es' =>
      match e with
      | Enqueue f => if stop (pool w) then accepted es' (step w e)
                     else f :: accepted es' (step w e)
      | _ => accepted es' (step w e)
      end
  end.

(** [acc] accounts for the tasks of [w]: it ends with the pending tasks in
    queue order, and what comes before them is what the workers have taken,
    each task either completed or being executed. *)
Definition accounted (w : world Task) (acc : list Task) : Prop :=
  ∃ taken, acc = taken ++ tasks (pool w) ∧
           taken ≡ₚ completed w ++ running (pool w).



End ThreadPool.

End PoolTrace.

(** ** array::slice *)

Module ArrayUtil.
Local Open Scope Z_scope.

(** Conversion to [int] (32 bits, two's complement) and to [size_t] (64 bits):
    the value modulo the width. *)
Definition to_int (z : Z) : Z := (z + 2 ^ 31) mod 2 ^ 32 - 2 ^ 31.
Definition to_size_t (z : Z) : Z := z mod 2 ^ 64.

(** The values of type [int]. *)
Definition is_int (z : Z) : Prop := - 2 ^ 31 ≤ z < 2 ^ 31.

(** [slice(data, start, end)].  In [data.size() + start] the [int] is converted
    to [size_t], the sum is taken in [size_t] and the assignment converts it
    back to [int].  The result is [None] when the iterator range handed to the
    vector constructor is inverted, which is undefined. *)
Definition slice {T} (data : list T) (start end_ : Z) : option (list T) :=
  let size := Z.of_nat (length data) in
  (* if (end == -1) end = data.size(); *)
  let end1 := if end_ =? -1 then to_int size else end_ in
  (* if (start < 0) start = data.size() + start; *)
  let start1 :=
    if start <? 0 then to_int (to_size_t (size + to_size_t start)) else start in
  (* if (end < 0) end = data.size() + end; *)
  let end2 :=
    if end1 <? 0 then to_int (to_size_t (size + to_size_t end1)) else end1 in
  (* start = std::max(0, std::min(start, (int)data.size())); *)
  let start2 := Z.max 0 (Z.min start1 (to_int size)) in
  (* end = std::max(0, std::min(end, (int)data.size())); *)
  let end3 := Z.max 0 (Z.min end2 (to_int size)) in
  (* return std::vector<T>(data.begin() + start, data.begin() + end); *)
  if start2 <=? end3
  then Some (take (Z.to_nat (end3 - start2)) (drop (Z.to_nat start2) data))
  else None.

(** The offsets [start] and [end] have when the iterators
    [data.begin() + start] and [data.begin() + end] are formed: the first five
    statements of [slice] on their own. *)
Definition slice_offsets {T} (data : list T) (start end_ : Z) : Z * Z :=
  let size := Z.of_nat (length data) in
  let end1 := if end_ =? -1 then to_int size else end_ in
  let start1 :=
    if start <? 0 then to_int (to_size_t (size + to_size_t start)) else start in
  let end2 :=
    if end1 <? 0 then to_int (to_size_t (size + to_size_t end1)) else end1 in
  (Z.max 0 (Z.min start1 (to_int size)), Z.max 0 (Z.min end2 (to_int size))).

(** An index counted from the end when negative, then brought into
    [0 .. size]. *)
Definition from_end (size i : Z) : Z := if i <? 0 then size + i else i.
Definition clamp (size i : Z) : Z := Z.max 0 (Z.min i size).

End ArrayUtil.

(** ** namespace string *)

Module StringUtil.

Section Strings.

(** A [std::string] is the list of its characters. *)
Context {C : Type} `{EqDecision C}.

(** The first index at which [d] occurs in [s]. *)
Fixpoint find_first (d s : list C) : option nat :=
  if bool_decide (d `prefix_of` s) then Some 0
  else match s with
       | [] => None
       | _ :: s' => S <$> find_first d s'
       end.

(** [str.find(d, pos)]; [None] is [npos]. *)
Definition find (str d : list C) (pos : nat) : option nat :=
  if decide (pos ≤ length str) then (λ i, pos + i) <$> find_first d (drop pos str)
  else None.

(** [str.substr(pos, n)] for [pos <= str.size()]. *)
Definition substr (str : list C) (pos n : nat) : list C := take n (drop pos str).

(** [str.compare(pos, n, other) == 0] *)
Definition compare_eq (str : list C) (pos n : nat) (other : list C) : bool :=
  bool_decide (substr str pos n = other).

Definition starts_with (str prefix : list C) : bool :=
  bool_decide (length prefix ≤ length str) && compare_eq str 0 (length prefix) prefix.

Definition ends_with (str suffix : list C) : bool :=
  bool_decide (length suffix ≤ length str) &&
  compare_eq str (length str - length suffix) (length suffix) suffix.

(** The loop of [split]: [end_] is the position found last.  The loop does not
    terminate by itself for every input, so it runs on fuel; [None] is fuel
    run out. *)
Fixpoint split_loop (fuel : nat) (str d : list C) (result : list (list C))
    (start : nat) (end_ : option nat) : option (list (list C)) :=
  match end_ with
  | None =>
      (* result.push_back(str.substr(start, end)); with end == npos *)
      Some (result ++ [drop start str])
  | Some e =>
      match fuel with
      | 0 => None
      | S fuel' =>
          split_loop fuel' str d (result ++ [substr str start (e - start)])
                     (e + length d) (find str d (e + length d))
      end
  end.

Definition split (fuel : nat) (str d : list C) : option (list (list C)) :=
  split_loop fuel str d [] 0 (find str d 0).

Definition join (strings : list (list C)) (d : list C) : list C :=
  match strings with
  | [] => []
  | s0 :: rest => foldl (λ result s, result ++ (d ++ s)) s0 rest
  end.

(** [result.replace(pos, n, to)] for [pos + n <= result.size()]. *)
Definition replace_at (result : list C) (pos n : nat) (to : list C) : list C :=
  take pos result ++ to ++ drop (pos + n) result.

Fixpoint replace_loop (fuel : nat) (from to result : list C) (start_pos : nat)
    : option (list C) :=
  match find result from start_pos with
  | None => Some result
  | Some p =>
      match fuel with
      | 0 => None
      | S fuel' =>
          replace_loop fuel' from to (replace_at result p (length from) to)
                       (p + length to)
      end
  end.

Definition replace (fuel : nat) (str from to : list C) : option (list C) :=
  replace_loop fuel from to str 0.

(** What both loops walk through: the stretches of [s] between one occurrence
    of [d] and the next, searching on after each occurrence. *)
Fixpoint pieces (fuel : nat) (d s : list C) : option (list (list C)) :=
  match find_first d s with
  | None => Some [s]
  | Some i =>
      match fuel with
      | 0 => None
      | S fuel' => (take i s ::.) <$> pieces fuel' d (drop (i + length d) s)
      end
  end.

(** [d] occurs in [s]. *)
Definition occurs (d s : list C) : Prop := ∃ j, d `prefix_of` drop j s.

End Strings.

End StringUtil.

(** ** namespace net *)

Module Net.
Import Stdlib.Strings.Ascii Stdlib.NArith.BinNat.
Local Open Scope N_scope.

(** [isalnum] in the "C" locale, on the value of the character as an
    [unsigned char]: digits and the 52 letters, nothing at or above 128. *)
Definition isalnum (c : ascii) : bool :=
  let n := N_of_ascii c in
  ((48 <=? n) && (n <=? 57)) || ((65 <=? n) && (n <=? 90)) || ((97 <=? n) && (n <=? 122)).

(** The characters [url_encode] copies. *)
Definition unreserved (c : ascii) : bool :=
  isalnum c || bool_decide (c = "-"%char) || bool_decide (c = "_"%char)
            || bool_decide (c = "."%char) || bool_decide (c = "~"%char).

(** One digit as [std::hex] prints it: lower case. *)
Definition hex_digit (n : N) : ascii :=
  if n <? 10 then ascii_of_N (48 + n) else ascii_of_N (87 + n).

(** ['%' << std::setw(2) << int((unsigned char)c)] with fill ['0'] and
    [std::hex]: the value is below 256, so two digits. *)
Definition escape (c : ascii) : list ascii :=
  let n := N_of_ascii c in
  ["%"%char; hex_digit (n / 16); hex_digit (n mod 16)].

Definition url_encode (value : list ascii) : list ascii :=
  value ≫= λ c, if unreserved c then [c] else escape c.

(** [static_cast<char>(hex_value)] *)
Definition to_char (hex_value : Z) : ascii := ascii_of_N (Z.to_N (hex_value mod 256)).

Section Decode.

(** [std::istringstream(s) >> std::hex >> hex_value] on a string of two
    characters: the value extracted, or [None] when the extraction fails.
    The stream library is not part of the source. *)
Variable extract_hex : list ascii → option Z.

Fixpoint url_decode (value : list ascii) : list ascii :=
  match value with
  | [] => []
  | c :: rest =>
      if decide (c = "%"%char) then
        match rest with
        | h1 :: h2 :: rest' =>               (* i + 2 < value.size() *)
            match extract_hex [h1; h2] with
            | Some hex_value => to_char hex_value :: url_decode rest'   (* i += 2 *)
            | None => c :: url_decode rest
            end
        | _ => c :: url_decode rest          (* not '+' either *)
        end
      else if decide (c = "+"%char) then " "%char :: url_decode rest
      else c :: url_decode rest
  end.

End Decode.

(** The value of a hexadecimal digit. *)
Definition hex_value_of (c : ascii) : option N :=
  let n := N_of_ascii c in
  if (48 <=? n) && (n <=? 57) then Some (n - 48)
  else if (97 <=? n) && (n <=? 102) then Some (n - 87)
  else if (65 <=? n) && (n <=? 70) then Some (n - 55)
  else None.

(** What the extraction gives on two hexadecimal digits.  (On other input
    the stream may still extract a value; that is left out here.) *)
Definition extract_hex_digits (s : list ascii) : option Z :=
  match s with
  | [h1; h2] =>
      match hex_value_of h1, hex_value_of h2 with
      | Some a, Some b => Some (Z.of_N (16 * a + b))
      | _, _ => None
      end
  | _ => None
  end.

End Net.

(** ** algorithm::generate_sequence *)

Module Sequence.
Local Open Scope Z_scope.

(** [generate_sequence<int>].  Overflow of [i += step] on [int] is undefined,
    and the loop need not terminate: it runs on fuel. *)
Inductive outcome_seq :=
  | Done (result : list Z)
  | Overflow
  | OutOfFuel.

Definition fits_int (z : Z) : bool := (- 2 ^ 31 <=? z) && (z <? 2 ^ 31).

Fixpoint generate_loop (fuel : nat) (i end_ step : Z) (result : list Z) : outcome_seq :=
  if i <=? end_ then
    match fuel with
    | O => OutOfFuel
    | S fuel' =>
        (* result.push_back(i); i += step; *)
        if fits_int (i + step)
        then generate_loop fuel' (i + step) end_ step (result ++ [i])
        else Overflow
    end
  else Done result.

Definition generate_sequence (fuel : nat) (start end_ step : Z) : outcome_seq :=
  generate_loop fuel start end_ step [].

(** [n] terms from [i] on, [step] apart. *)
Definition progression (i step : Z) (n : nat) : list Z :=
  (λ k, i + Z.of_nat k * step) <$> seq 0 n.

End Sequence.

(** ** string::trim *)

Module Trim.
Import Stdlib.Strings.Ascii Stdlib.NArith.BinNat.

(** [std::isspace] as the "C" locale answers: true on the space and on tab to
    carriage return, false on every other byte, those at and above 128
    included. *)
Definition isspace (c : ascii) : bool :=
  let n := N_of_ascii c in
  (n =? 32)%N || ((9 <=? n)%N && (n <=? 13)%N).

(** [*it] for the iterator at index [i] of [str]. *)
Definition isspace_at (str : list ascii) (i : nat) : bool :=
  from_option isspace false (str !! i).

(** [while (start != str.end() && std::isspace( *start )) start++;] as the
    index [start] ends at. *)
Fixpoint skip_front (str : list ascii) : nat :=
  match str with
  | [] => 0
  | c :: rest => if isspace c then S (skip_front rest) else 0
  end.

(** The [do ... while] on [end].  The iterators of a [std::string] are
    pointers.  The position of [end] is kept as [stop], the index one after
    it, so that [end] one before [begin()], where the first [end--] puts it on
    the empty string, is [stop = 0].  [back_off str start stop] is what the
    loop does from the test of its condition on, [end] having just been
    decremented: [std::distance(start, end) > 0 && std::isspace( *end )], in
    which [end] is read only when it is beyond [start]. *)
Fixpoint back_off (str : list ascii) (start stop : nat) : nat :=
  match stop with
  | 0 => 0
  | S e =>                                  (* [e] is the index of [end] *)
      if bool_decide (start < e) && isspace_at str e
      then back_off str start e             (* end--; *)
      else stop
  end.

Definition trim (str : list ascii) : list ascii :=
  let start := skip_front str in
  (* auto end = str.end(); do { end--; } while (...); *)
  let stop := back_off str start (length str) in
  (* return std::string(start, end + 1); *)
  take (stop - start) (drop start str).

End Trim.

(** ** net::parse_query_string *)

Module Query.
Import Stdlib.Strings.Ascii.
Import StringUtil Net.

Section Parse.
Variable extract_hex : list ascii → option Z.

(** One round of the loop over the pairs.  [fuel] is what the inner call of
    [split] runs on. *)
Definition add_pair (fuel : nat)
    (result : option (gmap (list ascii) (list ascii))) (pair : list ascii)
    : option (gmap (list ascii) (list ascii)) :=
  m ← result;
  key_value ← split fuel pair ["="%char];
  Some (match key_value with
        | [k; v] =>       (* key_value.size() == 2 *)
            <[url_decode extract_hex k := url_decode extract_hex v]> m
        | _ => m
        end).

(** [std::map<std::string, std::string>] as a finite map. *)
Definition parse_query_string (fuel : nat) (query : list ascii)
    : option (gmap (list ascii) (list ascii)) :=
  pairs ← split fuel query ["&"%char];
  foldl (add_pair fuel) (Some ∅) pairs.

End Parse.

(** The query string that writes a list of pairs: each key and value
    encoded, [=] between them, [&] between the pairs. *)
Definition query_of (kvs : list (list ascii * list ascii)) : list ascii :=
  join ((λ kv, url_encode kv.1 ++ "="%char :: url_encode kv.2) <$> kvs) ["&"%char].

End Query.

(** ** array::remove_duplicates *)

Module Dedup.
Local Open Scope Z_scope.

(** [std::unique]: of each run of equal elements the first is kept; an element
    is compared with the last one kept. *)
Fixpoint unique_from {T} `{EqDecision T} (kept : T) (l : list T) : list T :=
  match l with
  | [] => []
  | x :: l' => if decide (kept = x) then unique_from kept l' else x :: unique_from x l'
  end.

Definition unique {T} `{EqDecision T} (l : list T) : list T :=
  match l with
  | [] => []
  | x :: l' => x :: unique_from x l'
  end.

Section RemoveDuplicates.

(** [std::sort] on a vector of integers; the algorithm is the library's. *)
Variable sort : list Z → list Z.

(** [data.erase(std::unique(...), data.end())] after [std::sort]: the vector
    as it is left. *)
Definition remove_duplicates (data : list Z) : list Z := unique (sort data).

End RemoveDuplicates.

End Dedup.

(** * Properties *)

(** ** LRUCache *)

Module LRUFacts.
Import LRU.

Section LRUCache.
Context {T : Type} `{Countable T}.

Lemma filter_ne_notin (k : T) (l : list T) : k ∉ l → filter (λ x, x ≠ k) l = l.
Proof.
  induction l as [|x l IH]; [done|].
  rewrite not_elem_of_cons. intros [Hx Hl].
  rewrite filter_cons_True; [|congruence]. by rewrite IH.
Qed.

Lemma filter_ne_notin_self (k : T) (l : list T) : k ∉ filter (λ x, x ≠ k) l.
Proof. rewrite list_elem_of_filter. tauto. Qed.

Lemma nodup_fst_eq (l : list (nat * T)) it k1 k2 :
  NoDup l.*1 → (it, k1) ∈ l → (it, k2) ∈ l → k1 = k2.
Proof.
  induction l as [|[i k] l IH]; [by rewrite elem_of_nil|].
  rewrite fmap_cons, NoDup_cons, !elem_of_cons. simpl.
  intros [Hi Hl] [E1|H1] [E2|H2]; simplify_eq; auto.
  - exfalso. apply Hi. apply list_elem_of_fmap. by exists (i, k2).
  - exfalso. apply Hi. apply list_elem_of_fmap. by exists (i, k1).
Qed.

Lemma nodup_snd_eq (l : list (nat * T)) i1 i2 k :
  NoDup l.*2 → (i1, k) ∈ l → (i2, k) ∈ l → i1 = i2.
Proof.
  induction l as [|[i k'] l IH]; [by rewrite elem_of_nil|].
  rewrite fmap_cons, NoDup_cons, !elem_of_cons. simpl.
  intros [Hi Hl] [E1|H1] [E2|H2]; simplify_eq; auto.
  - exfalso. apply Hi. apply list_elem_of_fmap. by exists (i2, k').
  - exfalso. apply Hi. apply list_elem_of_fmap. by exists (i1, k').
Qed.

(** Unlinking by identity and removing by key agree on a linked list. *)
Lemma erase_keys_agree (l : list (nat * T)) it k :
  (∀ n, n ∈ l → n.1 = it ↔ n.2 = k) →
  (list_erase it l).*2 = filter (λ x, x ≠ k) l.*2.
Proof.
  unfold list_erase. induction l as [|n l IH]; [done|]. intros Hag.
  assert (n.1 = it ↔ n.2 = k) as Hn by (apply Hag; left).
  assert ((filter (λ n, n.1 ≠ it) l).*2 = filter (λ x, x ≠ k) l.*2) as IH'
    by (apply IH; intros; apply Hag; by right).
  rewrite fmap_cons. destruct (decide (n.1 = it)) as [E|E].
  - rewrite filter_cons_False; [|tauto].
    rewrite (filter_cons_False _ (n.2)); [done | tauto].
  - rewrite filter_cons_True; [|done].
    rewrite (filter_cons_True _ (n.2)); [|tauto]. by rewrite fmap_cons, IH'.
Qed.

Lemma linked_agree (l : list (nat * T)) m it k :
  linked l m → (it, k) ∈ l → ∀ n, n ∈ l → n.1 = it ↔ n.2 = k.
Proof.
  intros (Hid & Hk & _) Hin [i k'] Hn. simpl. split; intros ->.
  - eapply nodup_fst_eq; eauto.
  - eapply nodup_snd_eq; eauto.
Qed.

Lemma linked_notin (l : list (nat * T)) m k :
  linked l m → m !! k = None ↔ k ∉ l.*2.
Proof.
  intros (_ & _ & Hm). rewrite list_elem_of_fmap. split.
  - intros Hn ([i k'] & -> & Hin). apply Hm in Hin. simpl in *. congruence.
  - intros Hn. destruct (m !! k) as [it|] eqn:E; [|done].
    exfalso. apply Hn. exists (it, k). split; [done|]. by apply Hm.
Qed.

Lemma linked_in (l : list (nat * T)) m k :
  linked l m → is_Some (m !! k) ↔ k ∈ l.*2.
Proof.
  intros Hl. rewrite <-not_eq_None_Some, (linked_notin l m k Hl).
  destruct (decide (k ∈ l.*2)); tauto.
Qed.

Lemma linked_size (l : list (nat * T)) m : linked l m → base.size m = length l.
Proof.
  intros Hl. pose proof Hl as (_ & Hk & _).
  rewrite <-(length_fmap snd l), <-(size_list_to_set (C:=gset T) l.*2) by done.
  rewrite <-size_dom. f_equal. apply set_eq. intros k.
  rewrite elem_of_dom, elem_of_list_to_set. by apply linked_in.
Qed.

Lemma linked_nil : linked (T:=T) [] ∅.
Proof.
  split; [constructor|split; [constructor|]]. intros k it.
  rewrite lookup_empty, elem_of_nil. split; [done | tauto].
Qed.

(** A sublist of a linked list is linked to any map that indexes it. *)
Lemma linked_sublist (l l' : list (nat * T)) m m' :
  linked l m → l' `sublist_of` l →
  (∀ k it, m' !! k = Some it ↔ (it, k) ∈ l') → linked l' m'.
Proof.
  intros (Hid & Hk & _) Hsub Hm'. split; [|split; [|done]].
  - apply (sublist_NoDup l'.*1 l.*1); [exact Hid | by apply fmap_sublist].
  - apply (sublist_NoDup l'.*2 l.*2); [exact Hk | by apply fmap_sublist].
Qed.

Lemma linked_erase (l : list (nat * T)) m it k :
  linked l m → m !! k = Some it → linked (list_erase it l) (delete k m).
Proof.
  intros Hl Hm. pose proof Hl as (Hid & Hk & Hmap).
  assert ((it, k) ∈ l) as Hin by by apply Hmap.
  eapply linked_sublist; [exact Hl | apply sublist_filter|].
  intros k' it'. rewrite lookup_delete_Some, Hmap.
  unfold list_erase. rewrite list_elem_of_filter. simpl.
  split.
  - intros [Hne Hin']. split; [|done].
    intros ->. apply Hne. eapply nodup_fst_eq; eauto.
  - intros [Hne Hin']. split; [|done].
    intros ->. apply Hne. eapply nodup_snd_eq; eauto.
Qed.

Lemma linked_erase_keys (l : list (nat * T)) m it k :
  linked l m → m !! k = Some it →
  (list_erase it l).*2 = filter (λ x, x ≠ k) l.*2.
Proof.
  intros Hl Hm. apply erase_keys_agree. eapply linked_agree; [exact Hl|].
  destruct Hl as (_ & _ & Hmap). by apply Hmap.
Qed.

Lemma linked_push (l : list (nat * T)) m node k :
  linked l m → m !! k = None → node ∉ l.*1 →
  linked ((node, k) :: l) (<[k := node]> m).
Proof.
  intros Hl Hm Hnode. pose proof Hl as (Hid & Hk & Hmap).
  assert (k ∉ l.*2) as Hkl by by apply (linked_notin l m).
  split; [|split].
  - rewrite fmap_cons. by apply NoDup_cons.
  - rewrite fmap_cons. by apply NoDup_cons.
  - intros k' it'. rewrite lookup_insert_Some, elem_of_cons, Hmap. split.
    + intros [[-> ->]|[_ Hin]]; [by left | by right].
    + intros [E|Hin]; [left; by inversion E|].
      right. split; [|done]. intros ->. apply Hkl.
      apply list_elem_of_fmap. by exists (it', k').
Qed.

Lemma linked_pop_back (l : list (nat * T)) n m :
  linked (l ++ [n]) m → linked l (delete n.2 m).
Proof.
  intros Hl. pose proof Hl as (Hid & Hk & Hmap).
  rewrite fmap_app in Hk. apply NoDup_app in Hk as (_ & Hk & _).
  eapply linked_sublist; [exact Hl | by apply sublist_inserts_r|].
  intros k it. rewrite lookup_delete_Some, Hmap, elem_of_app, list_elem_of_singleton.
  split.
  - intros [Hne [Hin|E]]; [done|]. subst n. by destruct Hne.
  - intros Hin. split; [|by left]. intros <-.
    apply (Hk n.2); [|rewrite list_fmap_singleton; by apply list_elem_of_singleton].
    apply list_elem_of_fmap. by exists (it, n.2).
Qed.

Lemma node_at_Some (l : list (nat * T)) it n :
  node_at it l = Some n → n ∈ l ∧ n.1 = it.
Proof.
  unfold node_at. destruct (list_find _ l) as [[i x]|] eqn:E; [|done].
  simpl. intros [= <-]. apply list_find_Some in E as (Hi & Hx & _).
  split; [|done]. eapply list_elem_of_lookup_2; eauto.
Qed.

Lemma node_at_linked (l : list (nat * T)) m it k :
  linked l m → m !! k = Some it → node_at it l = Some (it, k).
Proof.
  intros Hl Hm. pose proof Hl as (Hid & Hk & Hmap).
  assert ((it, k) ∈ l) as Hin by by apply Hmap.
  destruct (node_at it l) as [[i k']|] eqn:E.
  - apply node_at_Some in E as [Hin' Hi]. simpl in Hi. subst i.
    f_equal. f_equal. eapply nodup_fst_eq; eauto.
  - unfold node_at in E. apply fmap_None in E.
    destruct (list_find_elem_of (λ n, n.1 = it) l (it, k)) as [? E']; [done..|].
    congruence.
Qed.

Lemma linked_splice (l : list (nat * T)) m it k :
  linked l m → m !! k = Some it → linked (splice_front it l) m.
Proof.
  intros Hl Hm. pose proof Hl as (Hid & Hk & Hmap).
  assert ((it, k) ∈ l) as Hin by by apply Hmap.
  unfold splice_front. rewrite (node_at_linked l m it k) by done.
  pose proof (linked_erase l m it k Hl Hm) as (Hid' & Hk' & Hmap').
  split; [|split].
  - rewrite fmap_cons. apply NoDup_cons. split; [|done]. simpl.
    rewrite list_elem_of_fmap. intros ([i k'] & -> & Hf).
    unfold list_erase in Hf. apply list_elem_of_filter in Hf. simpl in Hf. tauto.
  - rewrite fmap_cons. apply NoDup_cons. split; [|done]. simpl.
    rewrite (linked_erase_keys l m it k) by done. apply filter_ne_notin_self.
  - intros k' it'. rewrite Hmap, elem_of_cons.
    unfold list_erase. rewrite list_elem_of_filter. simpl. split.
    + intros Hin'. destruct (decide (it' = it)) as [->|Hne]; [left|tauto].
      f_equal. exact (nodup_fst_eq l it k' k Hid Hin' Hin).
    + intros [[= -> ->]|[_ ?]]; done.
Qed.

Lemma linked_splice_keys (l : list (nat * T)) m it k :
  linked l m → m !! k = Some it →
  (splice_front it l).*2 = k :: filter (λ x, x ≠ k) l.*2.
Proof.
  intros Hl Hm. unfold splice_front. rewrite (node_at_linked l m it k) by done.
  rewrite fmap_cons. simpl. f_equal. by apply (linked_erase_keys l m).
Qed.

(** *** [put], [get] and [contains] on a well-formed cache *)

Lemma wf_init cap : wf (init (T:=T) cap).
Proof.
  split; simpl; [apply linked_nil | | lia].
  intros n Hn. by apply elem_of_nil in Hn.
Qed.

Lemma pop_back_snoc (l : list (nat * T)) n : pop_back (l ++ [n]) = l.
Proof.
  unfold pop_back. rewrite length_app. simpl.
  apply take_app_length'. lia.
Qed.

(** The tail of [put]: the capacity check after the new node is linked in. *)
Lemma put_evict cap (items2 : list (nat * T)) map2 nxt :
  linked items2 map2 → (∀ n, n ∈ items2 → n.1 < nxt) → length items2 ≤ S cap →
  let c' :=
    if decide (cap < base.size map2) then
      match last items2 with
      | Some lst => mkLRUCache cap (pop_back items2) (delete lst.2 map2) nxt
      | None => mkLRUCache cap items2 map2 nxt
      end
    else mkLRUCache cap items2 map2 nxt in
  wf c' ∧ keys c' = take cap items2.*2 ∧ capacity c' = cap.
Proof.
  intros Hl Hfresh Hlen. rewrite (linked_size items2 map2 Hl).
  destruct (decide (cap < length items2)) as [Hfull|Hroom].
  - destruct (last items2) as [lst|] eqn:Elast.
    + apply last_Some in Elast as [l' ->]. rewrite pop_back_snoc.
      rewrite length_app in Hlen, Hfull. simpl in Hlen, Hfull.
      split; [split; simpl|split; [|done]].
      * by apply linked_pop_back.
      * intros n Hn. apply Hfresh. apply elem_of_app. by left.
      * lia.
      * unfold keys. simpl. rewrite fmap_app. symmetry.
        apply take_app_length'. rewrite length_fmap. lia.
    + apply last_None in Elast. subst items2. simpl in Hfull. lia.
  - split; [split; simpl; [done..|lia]|split; [|done]].
    unfold keys. simpl. symmetry. apply take_ge. rewrite length_fmap. lia.
Qed.

Lemma put_spec k (c : LRUCache T) :
  wf c →
  wf (put k c) ∧
  keys (put k c) = take (capacity c) (k :: filter (λ x, x ≠ k) (keys c)) ∧
  capacity (put k c) = capacity c.
Proof.
  intros [Hl Hfresh Hbound]. unfold put, keys.
  destruct (cache_map c !! k) as [it|] eqn:Hk.
  - rewrite <-(linked_erase_keys (items c) (cache_map c) it k) by done.
    apply (put_evict (capacity c) ((next_node c, k) :: list_erase it (items c))).
    + apply linked_push; [by apply linked_erase | apply lookup_delete_eq |].
      rewrite list_elem_of_fmap. intros (n & Hn & Hin).
      apply list_elem_of_filter in Hin as [_ Hin]. apply Hfresh in Hin. lia.
    + intros n. rewrite elem_of_cons. intros [->|Hin]; [simpl; lia|].
      apply list_elem_of_filter in Hin as [_ Hin]. apply Hfresh in Hin. lia.
    + simpl. unfold list_erase.
      assert ((it, k) ∈ items c) as Hin by (destruct Hl as (_ & _ & Hm); by apply Hm).
      pose proof (length_filter_lt (λ n : nat * T, n.1 ≠ it) (items c) (it, k) Hin).
      simpl in *. lia.
  - rewrite filter_ne_notin by by apply (linked_notin (items c) (cache_map c)).
    apply (put_evict (capacity c) ((next_node c, k) :: items c)).
    + apply linked_push; [done..|].
      rewrite list_elem_of_fmap. intros (n & Hn & Hin). apply Hfresh in Hin. lia.
    + intros n. rewrite elem_of_cons. intros [->|Hin]; [simpl; lia|].
      apply Hfresh in Hin. lia.
    + simpl. lia.
Qed.

Lemma contains_keys k (c : LRUCache T) :
  wf c → contains k c = bool_decide (k ∈ keys c).
Proof.
  intros [Hl _ _]. unfold contains, keys.
  apply bool_decide_ext. by apply linked_in.
Qed.

Lemma get_spec k (c : LRUCache T) :
  wf c →
  wf (get k c).2 ∧
  (get k c).1 = contains k c ∧
  keys (get k c).2 =
    (if contains k c then k :: filter (λ x, x ≠ k) (keys c) else keys c) ∧
  capacity (get k c).2 = capacity c.
Proof.
  intros [Hl Hfresh Hbound]. unfold get, contains, keys.
  destruct (cache_map c !! k) as [it|] eqn:Hk; simpl.
  - split; [|split; [done|split; [|done]]].
    + assert ((it, k) ∈ items c) as Hin by (destruct Hl as (_ & _ & Hm); by apply Hm).
      split; simpl.
      * by apply (linked_splice _ _ it k).
      * unfold splice_front. rewrite (node_at_linked _ _ it k Hl Hk).
        intros n. rewrite elem_of_cons. intros [->|Hn]; [by apply (Hfresh (it, k))|].
        apply list_elem_of_filter in Hn as [_ Hn]. by apply Hfresh.
      * unfold splice_front. rewrite (node_at_linked _ _ it k Hl Hk). simpl.
        pose proof (length_filter_lt (λ n : nat * T, n.1 ≠ it) (items c) (it, k) Hin).
        unfold list_erase. simpl in *. lia.
    + by apply (linked_splice_keys _ (cache_map c)).
  - split; [by split | by repeat split].
Qed.

(** *** Runs *)

Lemma wf_step (c : LRUCache T) o :
  wf c → wf (step c o) ∧ capacity (step c o) = capacity c.
Proof.
  intros Hwf. destruct o as [k|k|k|]; simpl; [| |done..].
  - destruct (put_spec k c Hwf) as (? & _ & ?). done.
  - destruct (get_spec k c Hwf) as (? & _ & _ & ?). done.
Qed.

Lemma wf_run os (c : LRUCache T) :
  wf c → wf (run os c) ∧ capacity (run os c) = capacity c.
Proof.
  unfold run. revert c. induction os as [|o os IH]; intros c Hwf; [done|].
  simpl. destruct (wf_step c o Hwf) as [Hwf' Hcap].
  destruct (IH _ Hwf') as [? Hcap']. split; [done | congruence].
Qed.

Lemma puts_run ks (c : LRUCache T) : puts ks c = run (Put <$> ks) c.
Proof.
  unfold puts, run. revert c. induction ks as [|k ks IH]; intros c; [done|].
  simpl. apply IH.
Qed.

Lemma puts_snoc ks k (c : LRUCache T) : puts (ks ++ [k]) c = put k (puts ks c).
Proof. unfold puts. by rewrite foldl_snoc. Qed.

(** Distinct keys put one after the other, no more of them than the capacity,
    end up at the front of the recency order, the latest first. *)
Lemma puts_prefix (ks : list T) (c : LRUCache T) :
  wf c → NoDup ks → length ks ≤ capacity c →
  wf (puts ks c) ∧ capacity (puts ks c) = capacity c ∧
  ∃ rest, keys (puts ks c) = reverse ks ++ rest.
Proof.
  intros Hwf. induction ks as [|k ks IH] using rev_ind; intros Hnd Hlen.
  - split; [done | split; [done|]]. by exists (keys c).
  - apply NoDup_app in Hnd as (Hnd & Hk & _).
    rewrite length_app in Hlen. simpl in Hlen.
    destruct (IH Hnd ltac:(lia)) as (Hwf' & Hcap & rest & Hkeys).
    rewrite puts_snoc.
    destruct (put_spec k _ Hwf') as (Hwf'' & Hkeys'' & Hcap'').
    split; [done | split; [congruence|]].
    rewrite Hkeys'', Hcap, Hkeys, reverse_snoc, filter_app.
    rewrite filter_ne_notin.
    + exists (take (capacity c - S (length ks)) (filter (λ x, x ≠ k) rest)).
      rewrite app_comm_cons, take_app.
      rewrite take_ge by (simpl; rewrite length_reverse; lia).
      simpl. rewrite length_reverse. done.
    + rewrite elem_of_reverse. intros Hin.
      apply (Hk k Hin). by apply list_elem_of_singleton.
Qed.

(** Every state a run of calls reaches from a fresh cache is well formed. *)
Lemma wf_reachable cap (os : list (@call T)) :
  wf (run os (init cap)) ∧ capacity (run os (init cap)) = cap.
Proof. apply (wf_run os (init cap)), wf_init. Qed.

Lemma keys_nil_contains (c : LRUCache T) k :
  wf c → keys c = [] → contains k c = false.
Proof.
  intros Hwf Hk. rewrite contains_keys, Hk by done.
  apply bool_decide_eq_false_2, not_elem_of_nil.
Qed.

(** C5 (LRU eviction).  For a cache of capacity [C >= 1], in whatever state a
    run of calls has left it, putting [C + 1] distinct keys [k1 :: ks] in
    order, with no [get] in between, leaves [k1] absent and exactly the keys
    of [ks] present. *)
Theorem lru_eviction (C : nat) (os : list (@call T)) (k1 : T) (ks : list T) :
  1 ≤ C → NoDup (k1 :: ks) → length ks = C →
  let c := puts (k1 :: ks) (run os (init C)) in
  contains k1 c = false ∧ (∀ k, contains k c = true ↔ k ∈ ks) ∧ size c = C.
Proof.
  intros _ Hnd Hlen c.
  apply NoDup_cons in Hnd as [Hk1 Hnd].
  destruct (wf_reachable C os) as [Hwf0 Hcap0].
  destruct (put_spec k1 _ Hwf0) as (Hwf1 & _ & Hcap1).
  destruct (puts_prefix ks _ Hwf1 Hnd) as (Hwf & Hcap & rest & Hkeys);
    [rewrite Hcap1, Hcap0; lia|].
  change (puts ks (put k1 (run os (init C)))) with c in Hwf, Hcap, Hkeys.
  assert (keys c = reverse ks) as Hk.
  { pose proof (wf_bound _ Hwf) as Hb.
    rewrite <-(length_fmap snd) in Hb. fold (keys c) in Hb.
    rewrite Hkeys, length_app, length_reverse, Hcap, Hcap1, Hcap0 in Hb.
    destruct rest; [by rewrite app_nil_r in Hkeys | simpl in Hb; lia]. }
  split; [|split].
  - rewrite contains_keys, Hk by done. apply bool_decide_eq_false_2.
    by rewrite elem_of_reverse.
  - intros k. rewrite contains_keys, Hk, bool_decide_eq_true by done.
    apply elem_of_reverse.
  - unfold size. unfold keys in Hk.
    rewrite <-(length_fmap snd), Hk, length_reverse. done.
Qed.

(** C8 (cache invariant).  For capacity [C >= 1], after every run of [put],
    [get], [contains] and [size] calls on a fresh cache: the size is at most
    [C], the keys of the map are exactly the keys of the recency list, and no
    key occurs twice in the list. *)
Theorem lru_invariant (C : nat) (os : list (@call T)) :
  1 ≤ C →
  let c := run os (init C) in
  size c ≤ C ∧
  dom (cache_map c) = list_to_set (C:=gset T) (keys c) ∧
  NoDup (keys c).
Proof.
  intros _ c. destruct (wf_reachable C os) as [[Hl _ Hb] Hcap]. fold c in Hl, Hb, Hcap.
  split; [unfold size; lia|]. split; [|by destruct Hl as (_ & ? & _)].
  apply set_eq. intros k.
  rewrite elem_of_dom, elem_of_list_to_set. by apply linked_in.
Qed.

(** [get] on a reachable state: the result is membership, and a present key
    moves to the front of the recency order, the others keeping theirs. *)
Lemma get_reachable (C : nat) (os : list (@call T)) (k : T) :
  let c := run os (init C) in
  (get k c).1 = contains k c ∧
  keys (get k c).2 =
    (if contains k c then k :: filter (λ x, x ≠ k) (keys c) else keys c).
Proof.
  intros c. destruct (wf_reachable C os) as [Hwf _].
  destruct (get_spec k c Hwf) as (_ & ? & ? & _). done.
Qed.

(** C10 (capacity zero).  A cache of capacity 0 is constructed without error,
    and after any sequence of [put] calls its size is 0 and no key is
    contained: each [put] evicts the key it has just inserted. *)
Theorem lru_capacity_zero (ks : list T) (k : T) :
  new (T:=T) 0 = Returns (init 0) ∧
  size (puts ks (init 0)) = 0 ∧
  contains k (puts ks (init 0)) = false.
Proof.
  split; [done|]. rewrite puts_run.
  destruct (wf_reachable 0 (Put <$> ks)) as [Hwf Hcap].
  pose proof (wf_bound _ Hwf) as Hb. rewrite Hcap in Hb.
  assert (items (run (Put <$> ks) (init 0)) = []) as Hnil
    by (apply length_zero_iff_nil; lia).
  split; [unfold size; by rewrite Hnil|].
  apply keys_nil_contains; [done|]. unfold keys. by rewrite Hnil.
Qed.

End LRUCache.

(** The run of the description: capacity 2, put a, put b, put c. *)
Lemma lru_eviction_witness :
  1 ≤ 2 ∧ NoDup ["a"; "b"; "c"]%string ∧ length ["b"; "c"]%string = 2 ∧
  let c := puts ["a"; "b"; "c"]%string (run [] (init 2)) in
  contains "a"%string c = false ∧
  (∀ k, contains k c = true ↔ k ∈ ["b"; "c"]%string) ∧ size c = 2.
Proof.
  assert (NoDup ["a"; "b"; "c"]%string) as Hnd
    by (apply (bool_decide_unpack _); vm_compute; exact I).
  split; [lia|]. split; [exact Hnd|]. split; [reflexivity|].
  apply (lru_eviction 2 [] "a"%string ["b"; "c"]%string); [lia | exact Hnd | reflexivity].
Defined.

Lemma lru_invariant_witness :
  1 ≤ 2 ∧
  let c := run [Put "a"; Get "a"; Put "b"; Contains "c"; Put "c"; Size]%string (init 2) in
  size c ≤ 2 ∧
  dom (cache_map c) = list_to_set (C:=gset string) (keys c) ∧
  NoDup (keys c).
Proof.
  split; [lia|]. apply (lru_invariant 2); lia.
Defined.

(** C6 (LRU promotion).  [get key] returns whether [key] is present and, when
    it is, makes it the most recently used key; so with capacity 2 the run
    put a, put b, get a, put c evicts b and keeps a and c. *)
Theorem lru_get_promotes :
  (∀ (T : Type) `{Countable T} (C : nat) (os : list (@call T)) (k : T),
     let c := run os (init C) in
     (get k c).1 = contains k c ∧
     keys (get k c).2 =
       (if contains k c then k :: filter (λ x, x ≠ k) (keys c) else keys c)) ∧
  (let c := run [Put "a"; Put "b"; Get "a"; Put "c"]%string (init 2) in
   contains "b"%string c = false ∧
   contains "a"%string c = true ∧
   contains "c"%string c = true).
Proof.
  split.
  - intros T ? ? C os k. apply get_reachable.
  - vm_compute. done.
Qed.

Example lru_eviction_example :
  let c := puts ["a"; "b"; "c"]%string (init 2) in
  (contains "a"%string c, contains "b"%string c, contains "c"%string c)
  = (false, true, true).
Proof. vm_compute. reflexivity. Qed.

End LRUFacts.

(** ** ConcurrentQueue *)

Module QueueFacts.
Import Queue.

Section ConcurrentQueue.
Context {T : Type}.

Lemma queue_pushes (vs : list T) q : queue (pushes vs q) = queue q ++ vs.
Proof.
  unfold pushes. revert q. induction vs as [|v vs IH]; intros q; simpl.
  - by rewrite app_nil_r.
  - rewrite IH. simpl. by rewrite <-app_assoc.
Qed.

(** As many [pop]s as there are items return them front to back and leave the
    queue empty; none of them blocks. *)
Lemma pops_drain (l : list T) : pops (length l) (mkQueue l) = Some (l, new).
Proof.
  induction l as [|v l IH]; [done|].
  simpl. unfold pop. simpl. by rewrite IH.
Qed.

(** C7 (FIFO).  [N] pushes by one producer into a fresh queue followed by [N]
    pops: every pop returns, and the values come out in the order pushed. *)
Theorem queue_fifo (vs : list T) :
  pops (length vs) (pushes vs new) = Some (vs, new).
Proof.
  pose proof (queue_pushes vs new) as Hq. simpl in Hq.
  destruct (pushes vs new) as [l]. simpl in Hq. subst l. apply pops_drain.
Qed.

Lemma empty_queue_nil (q : ConcurrentQueue T) : empty q = true → queue q = [].
Proof. unfold empty. by destruct (queue q). Qed.

(** C1, as the code has it.  The class has no [close] and no closed state:
    whenever the queue is empty, [pop] blocks, whatever calls came before, and
    it is a [push] that lets it return, with the value pushed; only [try_pop]
    returns at once on an empty queue, reporting no value and changing
    nothing. *)
Theorem pop_on_empty_blocks (q : ConcurrentQueue T) :
  empty q = true →
  pop q = Blocked ∧
  try_pop q = (None, q) ∧
  ∀ v, pop (push v q) = Popped v q.
Proof.
  intros He. apply empty_queue_nil in He.
  destruct q as [l]. simpl in He. subst l. by repeat split.
Qed.

End ConcurrentQueue.

Lemma pop_on_empty_blocks_witness :
  let q := run [Push 7; Pop; TryPop] (new (T:=nat)) in
  empty q = true ∧
  pop q = Blocked ∧
  try_pop q = (None, q) ∧
  ∀ v, pop (push v q) = Popped v q.
Proof.
  split; [reflexivity|]. apply pop_on_empty_blocks. reflexivity.
Defined.

(** C1 as stated fails: a freshly constructed queue is empty and [pop] on it
    blocks, and no state of the class, however reached, is an empty queue on
    which [pop] returns. *)
Lemma pop_end_of_stream_counterexample :
  pop (new (T:=nat)) = Blocked ∧
  ¬ ∃ q : ConcurrentQueue nat, empty q = true ∧ pop q ≠ Blocked.
Proof.
  split; [reflexivity|]. intros (q & He & Hp).
  apply Hp. unfold pop. by rewrite (empty_queue_nil q He).
Qed.

End QueueFacts.

(** ** RateLimiter *)

Module LimiterFacts.
Import Limiter.
Local Open Scope Z_scope.

Section RateLimiter.
Variable ticks_per_ms : Z.
Hypothesis ticks_pos : 0 < ticks_per_ms.

Lemma acquire_min_delay rl now late :
  min_delay (acquire ticks_per_ms rl now late).2 = min_delay rl.
Proof. unfold acquire. by destruct (_ <? _). Qed.

(** A grant is at least [min_delay] later than the one recorded before it. *)
Lemma acquire_spacing rl now late :
  last_call rl ≤ now → 0 ≤ late →
  last_call rl + min_delay rl * ticks_per_ms
    ≤ last_call (acquire ticks_per_ms rl now late).2.
Proof.
  intros Hnow Hlate. unfold acquire.
  pose proof (Z.mul_quot_le (now - last_call rl) ticks_per_ms) as Hq.
  destruct (Z.ltb_spec ((now - last_call rl) ÷ ticks_per_ms) (min_delay rl));
    simpl; nia.
Qed.

Lemma grants_spacing rl tr i g1 g2 :
  monotonic ticks_per_ms rl tr →
  (last_call rl :: grants ticks_per_ms rl tr) !! i = Some g1 →
  (last_call rl :: grants ticks_per_ms rl tr) !! S i = Some g2 →
  min_delay rl * ticks_per_ms ≤ g2 - g1.
Proof.
  revert rl i. induction tr as [|[now late] tr IH]; intros rl i Hmono H1 H2.
  - destruct i; discriminate.
  - simpl in Hmono. destruct Hmono as (Hnow & Hlate & Hmono).
    destruct i as [|i].
    + simpl in H1, H2. simplify_eq.
      pose proof (acquire_spacing rl now late Hnow Hlate). lia.
    + rewrite <-(acquire_min_delay rl now late).
      apply (IH _ i Hmono); [exact H1 | exact H2].
Qed.

(** C9, as the code has it.  The spacing enforced is [1000 / calls_per_second]
    whole milliseconds, the quotient truncated: times [calls_per_second] it
    falls short of the second by less than [calls_per_second] milliseconds.
    Any two consecutive grants are at least that spacing apart. *)
Theorem limiter_spacing (calls_per_second t0 : Z) (tr : list (Z * Z)) i g1 g2 :
  0 < calls_per_second →
  monotonic ticks_per_ms (new calls_per_second t0) tr →
  grants ticks_per_ms (new calls_per_second t0) tr !! i = Some g1 →
  grants ticks_per_ms (new calls_per_second t0) tr !! S i = Some g2 →
  min_delay (new calls_per_second t0) = 1000 ÷ calls_per_second ∧
  1000 - calls_per_second < min_delay (new calls_per_second t0) * calls_per_second ≤ 1000 ∧
  min_delay (new calls_per_second t0) * ticks_per_ms ≤ g2 - g1.
Proof.
  intros Hcps Hmono H1 H2. split; [done|]. split.
  - simpl.
    pose proof (Z.mul_quot_le 1000 calls_per_second).
    pose proof (Z.mul_succ_quot_gt 1000 calls_per_second). lia.
  - apply (grants_spacing _ tr (S i)); [done | exact H1 | exact H2].
Qed.

(** C2, as the code has it.  The baseline of the first [acquire] is the time
    of construction: the call returns without sleeping exactly when the
    minimum delay has already passed since then, and otherwise sleeps for the
    rest of it. *)
Theorem limiter_first_acquire (calls_per_second t0 now late : Z) :
  0 < calls_per_second → t0 ≤ now →
  let r := (acquire ticks_per_ms (new calls_per_second t0) now late).1 in
  (r = None ↔ (1000 ÷ calls_per_second) * ticks_per_ms ≤ now - t0) ∧
  (∀ d, r = Some d →
     0 < d ∧
     (1000 ÷ calls_per_second) * ticks_per_ms ≤ (now - t0) + d * ticks_per_ms
       < (1000 ÷ calls_per_second + 1) * ticks_per_ms).
Proof.
  intros Hcps Hnow. unfold acquire, new. simpl.
  pose proof (Z.mul_quot_le (now - t0) ticks_per_ms) as Hq.
  pose proof (Z.mul_succ_quot_gt (now - t0) ticks_per_ms) as Hq'.
  destruct (Z.ltb_spec ((now - t0) ÷ ticks_per_ms) (1000 ÷ calls_per_second));
    simpl; split.
  - split; [discriminate | nia].
  - intros d [= <-]. nia.
  - split; [nia | done].
  - intros d; discriminate.
Qed.

End RateLimiter.

(** A nanosecond clock, two calls per second, [acquire] entered at the instant
    of construction. *)
Lemma limiter_first_acquire_witness :
  0 < 1000000 ∧ 0 < 2 ∧ 0 ≤ 0 ∧
  let r := (acquire 1000000 (new 2 0) 0 0).1 in
  (r = None ↔ (1000 ÷ 2) * 1000000 ≤ 0 - 0) ∧
  (∀ d, r = Some d →
     0 < d ∧
     (1000 ÷ 2) * 1000000 ≤ (0 - 0) + d * 1000000 < (1000 ÷ 2 + 1) * 1000000).
Proof.
  split; [lia|]. split; [lia|]. split; [lia|].
  apply (limiter_first_acquire 1000000); lia.
Defined.

(** C2 as stated fails: constructed for two calls per second and asked at
    once, [acquire] sleeps for 500 ms. *)
Lemma limiter_first_acquire_counterexample :
  (acquire 1000000 (new 2 0) 0 0).1 = Some 500 ∧
  ¬ (∀ calls_per_second t0 now late,
       0 < calls_per_second → t0 ≤ now → 0 ≤ late →
       (acquire 1000000 (new calls_per_second t0) now late).1 = None).
Proof.
  split; [reflexivity|]. intros Hall.
  specialize (Hall 2 0 0 0). vm_compute in Hall.
  assert (Some 500 = None :> option Z) as E by (apply Hall; congruence).
  discriminate E.
Qed.

Lemma limiter_spacing_witness :
  0 < 1000000 ∧ 0 < 2 ∧
  monotonic 1000000 (new 2 0) [(0, 0); (500000000, 7)] ∧
  grants 1000000 (new 2 0) [(0, 0); (500000000, 7)] !! 0%nat = Some 500000000 ∧
  grants 1000000 (new 2 0) [(0, 0); (500000000, 7)] !! 1%nat = Some 1000000007 ∧
  min_delay (new 2 0) = 1000 ÷ 2 ∧
  1000 - 2 < min_delay (new 2 0) * 2 ≤ 1000 ∧
  min_delay (new 2 0) * 1000000 ≤ 1000000007 - 500000000.
Proof.
  assert (monotonic 1000000 (new 2 0) [(0, 0); (500000000, 7)]) as Hm
    by (vm_compute; repeat split; discriminate).
  split; [lia|]. split; [lia|]. split; [exact Hm|].
  split; [reflexivity|]. split; [reflexivity|].
  apply (limiter_spacing 1000000 ltac:(lia) 2 0 [(0, 0); (500000000, 7)] 0%nat);
    [lia | exact Hm | reflexivity | reflexivity].
Defined.

(** C9 as stated fails: with three calls per second two consecutive grants
    can be 333 ms apart, less than a third of a second; with 2000 calls per
    second no spacing is enforced at all. *)
Lemma limiter_spacing_counterexample :
  (monotonic 1000000 (new 3 0) [(0, 0); (333000000, 0)] ∧
   grants 1000000 (new 3 0) [(0, 0); (333000000, 0)] = [333000000; 666000000] ∧
   3 * (666000000 - 333000000) < 1000 * 1000000) ∧
  (monotonic 1000000 (new 2000 0) [(0, 0); (0, 0)] ∧
   grants 1000000 (new 2000 0) [(0, 0); (0, 0)] = [0; 0] ∧
   2000 * (0 - 0) < 1000 * 1000000) ∧
  ¬ (∀ calls_per_second t0 tr i g1 g2,
       0 < calls_per_second →
       monotonic 1000000 (new calls_per_second t0) tr →
       grants 1000000 (new calls_per_second t0) tr !! i = Some g1 →
       grants 1000000 (new calls_per_second t0) tr !! S i = Some g2 →
       1000 * 1000000 ≤ calls_per_second * (g2 - g1)).
Proof.
  assert (monotonic 1000000 (new 3 0) [(0, 0); (333000000, 0)]) as Hm
    by (vm_compute; repeat split; discriminate).
  split; [|split].
  - split; [exact Hm|]. split; [reflexivity | lia].
  - split; [vm_compute; repeat split; discriminate|].
    split; [reflexivity | lia].
  - intros Hall.
    specialize (Hall 3 0 [(0, 0); (333000000, 0)] 0%nat 333000000 666000000).
    assert (1000 * 1000000 ≤ 3 * (666000000 - 333000000)) as Hgap
      by (apply Hall; [lia | exact Hm | reflexivity | reflexivity]).
    lia.
Qed.

End LimiterFacts.

(** ** ThreadPool *)

Module PoolFacts.
Import Pool.

Section ThreadPool.
Context {Task : Type}.

(** [stop] is set once and never cleared. *)
Lemma stop_step (w : world Task) e :
  stop (pool w) = true → stop (pool (step w e)) = true.
Proof.
  intros Hs. destruct e as [f|i|]; simpl; [|..|done].
  - unfold enqueue. by rewrite Hs.
  - unfold work. destruct (workers (pool w) !! i) as [[|t|]|]; simpl; try done.
    rewrite Hs. simpl. by destruct (tasks (pool w)).
Qed.

Lemma stop_run es (w : world Task) :
  stop (pool w) = true → stop (pool (run es w)) = true.
Proof.
  unfold run. revert w. induction es as [|e es IH]; intros w Hs; [done|].
  simpl. by apply IH, stop_step.
Qed.

Lemma enqueue_stopped (f : Task) p :
  stop p = true →
  enqueue f p = (Throws (runtime_error "enqueue on stopped ThreadPool"), p).
Proof. intros Hs. unfold enqueue. by rewrite Hs. Qed.

(** C4 (rejection after shutdown).  Once the destructor has set [stop],
    whatever the workers and other callers do afterwards, [enqueue] throws
    and changes nothing: the queue of pending tasks and the completed tasks
    are as before. *)
Theorem enqueue_after_shutdown (threads : nat) (before after : list (event Task)) (f : Task) :
  let w := run (before ++ Destroy :: after) (mkWorld (start threads) []) in
  (enqueue f (pool w)).1 = Throws (runtime_error "enqueue on stopped ThreadPool") ∧
  tasks (pool (step w (Enqueue f))) = tasks (pool w) ∧
  completed (step w (Enqueue f)) = completed w ∧
  step w (Enqueue f) = w.
Proof.
  intros w.
  assert (stop (pool w) = true) as Hs.
  { unfold w, run. rewrite foldl_app. simpl. by apply stop_run. }
  simpl. rewrite (enqueue_stopped f _ Hs). simpl.
  repeat split. by destruct w.
Qed.

End ThreadPool.

Example enqueue_running :
  let w := run [Enqueue 1; Enqueue 2; Work 0; Enqueue 3; Work 0; Work 1]
               (mkWorld (start 2) []) in
  (tasks (pool w), completed w, workers (pool w))
  = ([3], [1], [Waiting; Running 2]).
Proof. reflexivity. Qed.

Example enqueue_drain_after_destroy :
  let w := run [Enqueue 1; Destroy; Enqueue 2; Work 0; Work 0; Work 0]
               (mkWorld (start 1) []) in
  (tasks (pool w), completed w, workers (pool w)) = ([], [1], [Exited]).
Proof. reflexivity. Qed.

End PoolFacts.

(** ** Construction *)

(** C3, as the code has it.  Neither constructor checks its size argument,
    and 0, the one value a [size_t] holds that is not positive, is accepted by
    both: the cache is built with capacity 0 and holds nothing; the pool is
    built, whatever the system can still start, with no worker, an empty queue
    and [stop] unset. *)
Theorem construction_zero_accepted (T : Type) `{Countable T} (Task : Type)
    (can_start : nat) :
  (∃ c : LRU.LRUCache T,
     LRU.new 0 = Returns c ∧ LRU.capacity c = 0 ∧ LRU.size c = 0) ∧
  (∃ p : Pool.ThreadPool Task,
     Pool.new can_start 0 = Pool.Built p ∧ Pool.workers p = [] ∧
     Pool.tasks p = [] ∧ Pool.stop p = false).
Proof.
  split.
  - exists (LRU.init 0). by repeat split.
  - exists (Pool.start 0). split; [|by repeat split].
    unfold Pool.new. rewrite decide_True; [done | lia].
Qed.

(** C3 as stated fails: with size 0 both constructors return an object, and
    neither fails. *)
Lemma construction_zero_counterexample :
  LRU.new (T:=string) 0 = Returns (LRU.mkLRUCache 0 [] ∅ 0) ∧
  Pool.new (Task:=nat) 4 0 = Pool.Built (Pool.mkThreadPool [] [] false) ∧
  ¬ (∃ e, LRU.new (T:=string) 0 = Throws e) ∧
  Pool.new (Task:=nat) 4 0 ≠ Pool.ResourceError ∧
  Pool.new (Task:=nat) 4 0 ≠ Pool.Terminated.
Proof.
  split; [reflexivity|]. split; [reflexivity|].
  split; [intros [e He]; discriminate He|].
  split; discriminate.
Qed.

(** The constructor of the pool on a system that can start 2 more threads. *)
Example pool_construction :
  Pool.new (Task:=nat) 2 2 = Pool.Built (Pool.start 2) ∧
  Pool.new (Task:=nat) 2 5 = Pool.Terminated ∧
  Pool.new (Task:=nat) 0 5 = Pool.ResourceError.
Proof. repeat split. Qed.

(** ** LRUCache: order, eviction and the two containers *)

Module LRUOrder.
Import LRU LRUFacts.

Section LRUCache.
Context {T : Type} `{Countable T}.

(** Moving a key of a duplicate-free list to the front only reorders it. *)
Lemma move_front_perm (k : T) (l : list T) :
  NoDup l → k ∈ l → k :: filter (λ x, x ≠ k) l ≡ₚ l.
Proof.
  intros Hnd Hin. apply NoDup_Permutation; [|done|].
  - apply NoDup_cons. split; [apply filter_ne_notin_self | by apply NoDup_filter].
  - intros x. rewrite elem_of_cons, list_elem_of_filter.
    destruct (decide (x = k)) as [->|Hne]; [tauto|].
    split; [intros [?|[_ ?]]; done | intros ?; by right].
Qed.

Lemma wf_keys_nodup (c : LRUCache T) : wf c → NoDup (keys c).
Proof. by intros [(_ & ? & _) _ _]. Qed.

Lemma wf_keys_length (c : LRUCache T) : wf c → length (keys c) ≤ capacity c.
Proof. intros [_ _ Hb]. unfold keys. by rewrite length_fmap. Qed.

Lemma put_keys_reachable (C : nat) (os : list (@call T)) (k : T) :
  keys (put k (run os (init C)))
  = take C (k :: filter (λ x, x ≠ k) (keys (run os (init C)))).
Proof.
  destruct (wf_reachable C os) as [Hwf Hcap].
  destruct (put_spec k _ Hwf) as (_ & Hk & _). by rewrite Hk, Hcap.
Qed.

(** [put] in terms of the recency order: the key goes to the front, the other
    keys keep their order, and what no longer fits the capacity falls off the
    back; no key is there twice and the size stays within the capacity. *)
Theorem put_recency (C : nat) (os : list (@call T)) (k : T) :
  let c := run os (init C) in
  keys (put k c) = take C (k :: filter (λ x, x ≠ k) (keys c)) ∧
  NoDup (keys (put k c)) ∧
  size (put k c) ≤ C.
Proof.
  intros c. destruct (wf_reachable C os) as [Hwf Hcap]. fold c in Hwf, Hcap.
  destruct (put_spec k c Hwf) as (Hwf' & Hk & Hcap').
  split; [by rewrite Hk, Hcap|]. split; [by apply wf_keys_nodup|].
  pose proof (wf_bound _ Hwf'). unfold size. lia.
Qed.

(** With room for at least one key, a key just put is found, and it is the
    most recently used one. *)
Theorem put_then_contains (C : nat) (os : list (@call T)) (k : T) :
  1 ≤ C →
  let c := put k (run os (init C)) in
  contains k c = true ∧ (get k c).1 = true ∧ head (keys c) = Some k.
Proof.
  intros HC c. destruct (wf_reachable C os) as [Hwf Hcap].
  destruct (put_spec k _ Hwf) as (Hwf' & _ & _). fold c in Hwf'.
  pose proof (put_keys_reachable C os k) as Hk. fold c in Hk.
  destruct C as [|C]; [lia|]. simpl in Hk.
  assert (contains k c = true) as Hc.
  { rewrite contains_keys, Hk by done. apply bool_decide_eq_true_2. by left. }
  split; [done|]. split; [|by rewrite Hk].
  destruct (get_spec k c Hwf') as (_ & -> & _). done.
Qed.

(** [size()] reads the list and the eviction test reads the map: on every
    reachable state the two containers hold the same number of entries. *)
Theorem size_agrees (C : nat) (os : list (@call T)) :
  let c := run os (init C) in
  size c = base.size (cache_map c) ∧ size c = length (keys c).
Proof.
  intros c. destruct (wf_reachable C os) as [[Hl _ _] _]. fold c in Hl.
  split; [symmetry; by apply linked_size|].
  unfold size, keys. by rewrite length_fmap.
Qed.

(** [get] changes the order only: the same keys are cached after it, as many
    of them, whether or not the key asked for is present. *)
Theorem get_keeps_content (C : nat) (os : list (@call T)) (k : T) :
  let c := run os (init C) in
  keys (get k c).2 ≡ₚ keys c ∧
  size (get k c).2 = size c ∧
  ∀ k', contains k' (get k c).2 = contains k' c.
Proof.
  intros c. destruct (wf_reachable C os) as [Hwf _]. fold c in Hwf.
  destruct (get_spec k c Hwf) as (Hwf' & _ & Hk & _).
  assert (keys (get k c).2 ≡ₚ keys c) as Hp.
  { rewrite Hk. destruct (contains k c) eqn:Hc; [|done].
    apply move_front_perm; [by apply wf_keys_nodup|].
    rewrite contains_keys in Hc by done. by apply bool_decide_eq_true in Hc. }
  split; [done|]. split.
  - unfold size. rewrite <-!(length_fmap snd). apply Permutation_length, Hp.
  - intros k'. rewrite !contains_keys by done.
    apply bool_decide_ext. by rewrite Hp.
Qed.

(** [put] of a key that is present moves it to the front and neither adds nor
    evicts anything. *)
Theorem put_present (C : nat) (os : list (@call T)) (k : T) :
  let c := run os (init C) in
  contains k c = true →
  keys (put k c) = k :: filter (λ x, x ≠ k) (keys c) ∧
  keys (put k c) ≡ₚ keys c ∧
  size (put k c) = size c.
Proof.
  intros c Hc. destruct (wf_reachable C os) as [Hwf Hcap]. fold c in Hwf, Hcap.
  rewrite contains_keys in Hc by done. apply bool_decide_eq_true in Hc.
  pose proof (move_front_perm k (keys c) (wf_keys_nodup c Hwf) Hc) as Hp.
  pose proof (put_keys_reachable C os k) as Hr. fold c in Hr.
  assert (keys (put k c) = k :: filter (λ x, x ≠ k) (keys c)) as Hk.
  { rewrite Hr. apply take_ge.
    rewrite (Permutation_length Hp). rewrite <-Hcap. by apply wf_keys_length. }
  split; [done|]. split; [by rewrite Hk|].
  unfold size. rewrite <-!(length_fmap snd). fold (keys (put k c)) (keys c).
  rewrite Hk. apply Permutation_length, Hp.
Qed.

(** [put] of a new key into a full cache evicts exactly the key at the back of
    the recency order, the least recently used one. *)
Theorem put_evicts_lru (C : nat) (os : list (@call T)) (k : T) :
  let c := run os (init C) in
  1 ≤ C → size c = C → contains k c = false →
  ∃ front lru,
    keys c = front ++ [lru] ∧
    keys (put k c) = k :: front ∧
    contains lru (put k c) = false ∧
    size (put k c) = C.
Proof.
  intros c HC Hsize Hc. destruct (wf_reachable C os) as [Hwf Hcap]. fold c in Hwf, Hcap.
  destruct (put_spec k c Hwf) as (Hwf' & _ & _).
  rewrite contains_keys in Hc by done. apply bool_decide_eq_false in Hc.
  assert (length (keys c) = C) as Hlen
    by (unfold keys; by rewrite length_fmap).
  destruct (keys c) as [|k0 ks] eqn:Hks using rev_ind; [simpl in Hlen; lia|].
  clear IHks. exists ks, k0. rewrite length_app in Hlen. simpl in Hlen.
  pose proof (put_keys_reachable C os k) as Hr. fold c in Hr.
  assert (keys (put k c) = k :: ks) as Hk.
  { rewrite Hr, Hks.
    rewrite filter_ne_notin by done.
    rewrite app_comm_cons. apply take_app_length'. simpl. lia. }
  split; [done|]. split; [done|]. split.
  - rewrite contains_keys, Hk by done. apply bool_decide_eq_false_2.
    pose proof (wf_keys_nodup c Hwf) as Hnd. rewrite Hks in Hnd.
    apply NoDup_app in Hnd as (_ & Hnd & _).
    rewrite not_elem_of_cons. split.
    + intros ->. apply Hc. apply elem_of_app. right. by left.
    + intros Hin. apply (Hnd k0 Hin). by left.
  - unfold size. rewrite <-(length_fmap snd). fold (keys (put k c)).
    rewrite Hk. simpl. lia.
Qed.

End LRUCache.

Lemma put_then_contains_witness :
  1 ≤ 1 ∧
  let c := put "b"%string (run [Put "a"%string] (init 1)) in
  contains "b"%string c = true ∧ (get "b"%string c).1 = true ∧
  head (keys c) = Some "b"%string.
Proof.
  split; [lia|]. apply (put_then_contains 1 [Put "a"%string] "b"%string). lia.
Defined.

Lemma put_present_witness :
  let c := run [Put "a"; Put "b"; Put "c"]%string (init 3) in
  contains "a"%string c = true ∧
  keys (put "a"%string c) = "a"%string :: filter (λ x, x ≠ "a"%string) (keys c) ∧
  keys (put "a"%string c) ≡ₚ keys c ∧
  size (put "a"%string c) = size c.
Proof.
  split; [vm_compute; reflexivity|].
  apply (put_present 3 [Put "a"; Put "b"; Put "c"]%string "a"%string).
  vm_compute. reflexivity.
Defined.

Lemma put_evicts_lru_witness :
  let c := run [Put "a"; Put "b"; Get "a"]%string (init 2) in
  1 ≤ 2 ∧ size c = 2 ∧ contains "c"%string c = false ∧
  ∃ front lru,
    keys c = front ++ [lru] ∧
    keys (put "c"%string c) = "c"%string :: front ∧
    contains lru (put "c"%string c) = false ∧
    size (put "c"%string c) = 2.
Proof.
  split; [lia|]. split; [reflexivity|]. split; [vm_compute; reflexivity|].
  apply (put_evicts_lru 2 [Put "a"; Put "b"; Get "a"]%string "c"%string);
    [lia | reflexivity | vm_compute; reflexivity].
Defined.

End LRUOrder.

(** ** ConcurrentQueue: runs *)

Module QueueOrder.
Import Queue QueueTrace.

Section ConcurrentQueue.
Context {T : Type}.

(** A consumer that pops [n] times in a row gets the first [n] items when
    there are that many, and is left blocked when there are fewer. *)
Theorem pops_available (n : nat) (q : ConcurrentQueue T) :
  pops n q =
    if decide (n ≤ size q)
    then Some (take n (queue q), mkQueue (drop n (queue q)))
    else None.
Proof.
  destruct q as [l]. unfold size. simpl. revert l.
  induction n as [|n IH]; intros l.
  - simpl. by rewrite drop_0.
  - destruct l as [|v l]; simpl.
    + done.
    + unfold pop. simpl. rewrite IH.
      destruct (decide (n ≤ length l)), (decide (S n ≤ S (length l)));
        (done || lia).
Qed.

(** Whatever way pushes, pops and the other calls interleave, the values handed
    out so far followed by the values still queued are the values that were
    queued at the start followed by the values pushed, all in order: nothing
    is lost, duplicated or overtaken. *)
Theorem run_fifo (cs : list (call T)) (q : ConcurrentQueue T) :
  outputs cs q ++ queue (run cs q) = queue q ++ inputs cs.
Proof.
  unfold run, inputs. revert q. induction cs as [|c cs IH]; intros q.
  - simpl. by rewrite app_nil_r.
  - destruct q as [l]. destruct c as [v| | | |]; simpl.
    + rewrite IH. simpl. by rewrite <-app_assoc.
    + unfold pop. simpl. destruct l as [|x l]; simpl; by rewrite IH.
    + unfold try_pop. simpl. destruct l as [|x l]; simpl; by rewrite IH.
    + apply IH.
    + apply IH.
Qed.

End ConcurrentQueue.

End QueueOrder.

(** ** RateLimiter: rate and sleeping *)

Module LimiterRate.
Import Limiter LimiterTrace LimiterFacts.
Local Open Scope Z_scope.

Section RateLimiter.
Variable ticks_per_ms : Z.
Hypothesis ticks_pos : 0 < ticks_per_ms.

Lemma elapsed_nonneg rl now :
  last_call rl ≤ now → 0 ≤ (now - last_call rl) ÷ ticks_per_ms.
Proof. intros Hnow. apply Z.quot_pos; lia. Qed.

Lemma grants_far_apart rl tr (k i : nat) gi gj :
  monotonic ticks_per_ms rl tr →
  (last_call rl :: grants ticks_per_ms rl tr) !! i = Some gi →
  (last_call rl :: grants ticks_per_ms rl tr) !! (i + k)%nat = Some gj →
  Z.of_nat k * (min_delay rl * ticks_per_ms) ≤ gj - gi.
Proof.
  intros Hmono Hi. revert gj. induction k as [|k IH]; intros gj Hj.
  - rewrite Nat.add_0_r in Hj. simplify_eq. lia.
  - replace (i + S k)%nat with (S (i + k)) in Hj by lia.
    destruct (lookup_lt_is_Some_2 (last_call rl :: grants ticks_per_ms rl tr) (i + k))
      as [gm Hm].
    { apply lookup_lt_Some in Hj. lia. }
    pose proof (IH gm Hm).
    pose proof (grants_spacing ticks_per_ms ticks_pos rl tr (i + k) gm gj Hmono Hm Hj).
    lia.
Qed.

(** The rate over any stretch of a run: counting the construction as grant 0,
    grant [j] comes at least [j - i] minimum delays after grant [i].  So [n]
    calls of [acquire] on a new limiter take at least [n] minimum delays. *)
Theorem grants_rate (calls_per_second t0 : Z) (tr : list (Z * Z)) (i j : nat) gi gj :
  0 < calls_per_second →
  monotonic ticks_per_ms (new calls_per_second t0) tr →
  (i ≤ j)%nat →
  (t0 :: grants ticks_per_ms (new calls_per_second t0) tr) !! i = Some gi →
  (t0 :: grants ticks_per_ms (new calls_per_second t0) tr) !! j = Some gj →
  Z.of_nat (j - i) * ((1000 ÷ calls_per_second) * ticks_per_ms) ≤ gj - gi.
Proof.
  intros _ Hmono Hij Hi Hj.
  apply (grants_far_apart (new calls_per_second t0) tr (j - i) i); [done..|].
  by replace (i + (j - i))%nat with j by lia.
Qed.

(** When [acquire] sleeps, it asks for a positive number of milliseconds, never
    more than the minimum delay, and the grant it records is the time of entry
    plus the sleep plus whatever the sleep overran. *)
Theorem acquire_sleep_bounded (rl : RateLimiter) (now late d : Z) :
  last_call rl ≤ now →
  (acquire ticks_per_ms rl now late).1 = Some d →
  0 < d ≤ min_delay rl ∧
  last_call (acquire ticks_per_ms rl now late).2 = now + d * ticks_per_ms + late.
Proof.
  intros Hnow. pose proof (elapsed_nonneg rl now Hnow) as He. unfold acquire.
  destruct (Z.ltb_spec ((now - last_call rl) ÷ ticks_per_ms) (min_delay rl));
    simpl; [|discriminate].
  intros [= <-]. split; [lia | done].
Qed.

Lemma no_delay_never_sleeps rl tr :
  min_delay rl ≤ 0 → monotonic ticks_per_ms rl tr →
  Forall (λ s, s = None) (sleeps ticks_per_ms rl tr) ∧
  grants ticks_per_ms rl tr = (λ p, p.1 + p.2) <$> tr.
Proof.
  revert rl. induction tr as [|[now late] tr IH]; intros rl Hmd Hmono.
  - split; [constructor | done].
  - simpl in Hmono. destruct Hmono as (Hnow & Hlate & Hmono).
    pose proof (elapsed_nonneg rl now Hnow) as He.
    assert (acquire ticks_per_ms rl now late
            = (None, mkRateLimiter (now + late) (min_delay rl))) as Ha.
    { unfold acquire.
      destruct (Z.ltb_spec ((now - last_call rl) ÷ ticks_per_ms) (min_delay rl));
        [lia | done]. }
    simpl. rewrite Ha in *. simpl in *.
    destruct (IH (mkRateLimiter (now + late) (min_delay rl)) Hmd Hmono) as [Hs Hg].
    split; [by constructor | by rewrite Hg].
Qed.

(** Above 1000 calls per second the integer quotient [1000 / calls_per_second]
    is 0: such a limiter never sleeps, and every grant is just the time its
    call was made. *)
Theorem fast_rate_never_sleeps (calls_per_second t0 : Z) (tr : list (Z * Z)) :
  1000 < calls_per_second →
  monotonic ticks_per_ms (new calls_per_second t0) tr →
  min_delay (new calls_per_second t0) = 0 ∧
  Forall (λ s, s = None) (sleeps ticks_per_ms (new calls_per_second t0) tr) ∧
  grants ticks_per_ms (new calls_per_second t0) tr = (λ p, p.1 + p.2) <$> tr.
Proof.
  intros Hcps Hmono.
  assert (min_delay (new calls_per_second t0) = 0) as Hmd
    by (simpl; apply Z.quot_small; lia).
  split; [done|]. apply no_delay_never_sleeps; [lia | done].
Qed.

End RateLimiter.

Lemma grants_rate_witness :
  0 < 1000000 ∧ 0 < 2 ∧
  monotonic 1000000 (new 2 0) [(0, 0); (500000000, 0); (1000000000, 0)] ∧
  (0 ≤ 3)%nat ∧
  (0 :: grants 1000000 (new 2 0) [(0, 0); (500000000, 0); (1000000000, 0)]) !! 0%nat
    = Some 0 ∧
  (0 :: grants 1000000 (new 2 0) [(0, 0); (500000000, 0); (1000000000, 0)]) !! 3%nat
    = Some 1500000000 ∧
  Z.of_nat (3 - 0) * ((1000 ÷ 2) * 1000000) ≤ 1500000000 - 0.
Proof.
  assert (monotonic 1000000 (new 2 0) [(0, 0); (500000000, 0); (1000000000, 0)])
    as Hm by (vm_compute; repeat split; discriminate).
  split; [lia|]. split; [lia|]. split; [exact Hm|]. split; [lia|].
  split; [reflexivity|]. split; [reflexivity|].
  apply (grants_rate 1000000 ltac:(lia) 2 0
           [(0, 0); (500000000, 0); (1000000000, 0)] 0 3);
    [lia | exact Hm | lia | reflexivity | reflexivity].
Defined.

Lemma acquire_sleep_bounded_witness :
  0 < 1000000 ∧ last_call (new 4 0) ≤ 100000000 ∧
  (acquire 1000000 (new 4 0) 100000000 5).1 = Some 150 ∧
  0 < 150 ≤ min_delay (new 4 0) ∧
  last_call (acquire 1000000 (new 4 0) 100000000 5).2
    = 100000000 + 150 * 1000000 + 5.
Proof.
  split; [lia|]. split; [simpl; lia|]. split; [reflexivity|].
  apply (acquire_sleep_bounded 1000000 ltac:(lia) (new 4 0) 100000000 5 150);
    [simpl; lia | reflexivity].
Defined.

Lemma fast_rate_never_sleeps_witness :
  0 < 1000000 ∧ 1000 < 2000 ∧
  monotonic 1000000 (new 2000 0) [(0, 0); (0, 3); (10, 0)] ∧
  min_delay (new 2000 0) = 0 ∧
  Forall (λ s, s = None) (sleeps 1000000 (new 2000 0) [(0, 0); (0, 3); (10, 0)]) ∧
  grants 1000000 (new 2000 0) [(0, 0); (0, 3); (10, 0)]
    = (λ p, p.1 + p.2) <$> [(0, 0); (0, 3); (10, 0)].
Proof.
  assert (monotonic 1000000 (new 2000 0) [(0, 0); (0, 3); (10, 0)]) as Hm
    by (vm_compute; repeat split; discriminate).
  split; [lia|]. split; [lia|]. split; [exact Hm|].
  apply (fast_rate_never_sleeps 1000000 ltac:(lia) 2000 0); [lia | exact Hm].
Defined.

End LimiterRate.

(** ** ThreadPool: workers, tasks and shutdown *)

Module PoolOrder.
Import Pool PoolTrace PoolFacts.

Section ThreadPool.
Context {Task : Type}.

Lemma run_cons (e : event Task) es w : run (e :: es) w = run es (step w e).
Proof. done. Qed.

Lemma work_length i (w : world Task) :
  length (workers (pool (work i w))) = length (workers (pool w)).
Proof.
  unfold work. destruct (workers (pool w) !! i) as [[|t|]|]; simpl; try done.
  - destruct (stop (pool w) || _); [|done].
    destruct (tasks (pool w)); simpl; apply length_insert.
  - apply length_insert.
Qed.

Lemma step_length (w : world Task) e :
  length (workers (pool (step w e))) = length (workers (pool w)).
Proof.
  destruct e as [f|i|]; simpl; [|apply work_length|done].
  unfold enqueue. by destruct (stop (pool w)).
Qed.

(** The number of workers is fixed at construction. *)
Theorem worker_count (threads : nat) (es : list (event Task)) :
  length (workers (pool (run es (mkWorld (start threads) [])))) = threads.
Proof.
  assert (∀ w : world Task,
            length (workers (pool (run es w))) = length (workers (pool w))) as Hrun.
  { induction es as [|e es IH]; intros w; [done|].
    rewrite run_cons, IH. apply step_length. }
  rewrite Hrun. simpl. apply length_replicate.
Qed.

(** [stop] is set by the destructor and by nothing else: [enqueue] is refused
    exactly when a run contains the destructor's first block. *)
Theorem stop_iff_destroyed (threads : nat) (es : list (event Task)) (f : Task) :
  let w := run es (mkWorld (start threads) []) in
  (stop (pool w) = true ↔ Destroy ∈ es) ∧
  ((enqueue f (pool w)).1 = Returns tt ↔ Destroy ∉ es).
Proof.
  assert (∀ w : world Task,
            stop (pool (run es w)) = true ↔ stop (pool w) = true ∨ Destroy ∈ es) as Hrun.
  { induction es as [|e es IH]; intros w.
    - rewrite elem_of_nil. simpl. tauto.
    - rewrite run_cons, IH, elem_of_cons. destruct e as [g|i|]; simpl.
      + assert (stop (enqueue g (pool w)).2 = stop (pool w)) as ->
          by (unfold enqueue; by destruct (stop (pool w)) eqn:Hs).
        split; [intros [?|?]; auto | intros [?|[?|?]]; auto; discriminate].
      + assert (stop (pool (work i w)) = stop (pool w)) as ->.
        { unfold work. destruct (workers (pool w) !! i) as [[|t|]|]; simpl; try done.
          destruct (stop (pool w) || _); [|done]. by destruct (tasks (pool w)). }
        split; [intros [?|?]; auto | intros [?|[?|?]]; auto; discriminate].
      + split; [intros _; right; by left | intros _; by left]. }
  intros w. assert (stop (pool w) = true ↔ Destroy ∈ es) as Hs.
  { unfold w. rewrite Hrun. simpl. split; [intros [?|?]; [discriminate|done] | by right]. }
  split; [done|]. rewrite <-Hs. unfold enqueue.
  destruct (stop (pool w)); simpl; split; (done || congruence).
Qed.

(** Replacing the worker at one index changes the executing tasks by that
    worker's task only. *)
Lemma running_insert (ws : list (worker Task)) i x y (ts : list Task) b :
  ws !! i = Some x →
  ∃ rest,
    running (mkThreadPool ws ts b)
      ≡ₚ match x with Running t => [t] | _ => [] end ++ rest ∧
    running (mkThreadPool (<[i := y]> ws) ts b)
      ≡ₚ match y with Running t => [t] | _ => [] end ++ rest.
Proof.
  intros Hi. unfold running. simpl.
  exists (omap (λ w, match w with Running t => Some t | _ => None end) (take i ws)
          ++ omap (λ w, match w with Running t => Some t | _ => None end) (drop (S i) ws)).
  rewrite insert_take_drop by (by eapply lookup_lt_Some).
  rewrite <-(take_drop_middle ws i x Hi) at 1.
  rewrite !omap_app. simpl. split.
  - destruct x; simpl; [done | | done]. by rewrite Permutation_middle.
  - destruct y; simpl; [done | | done]. by rewrite Permutation_middle.
Qed.

Lemma accounted_step (w : world Task) e acc :
  accounted w acc → accounted (step w e) (acc ++ accepted [e] w).
Proof.
  intros (taken & -> & Hp). destruct w as [[ws ts b] cs]. simpl in Hp.
  destruct e as [f|i|]; simpl.
  - unfold enqueue. simpl. destruct b; simpl.
    + rewrite app_nil_r. by exists taken.
    + exists taken. split; [by rewrite <-app_assoc | done].
  - rewrite app_nil_r. unfold work. simpl.
    destruct (ws !! i) as [[|t|]|] eqn:Hi; simpl.
    + destruct (b || _); [|by exists taken].
      destruct ts as [|t ts].
      * destruct (running_insert ws i Waiting Exited [] b Hi) as (rest & H1 & H2).
        exists taken. split; [done|]. simpl. rewrite Hp.
        apply Permutation_app_head. etrans; [exact H1|]. by symmetry.
      * destruct (running_insert ws i Waiting (Running t) ts b Hi) as (rest & H1 & H2).
        exists (taken ++ [t]). split; [by rewrite <-app_assoc|].
        simpl. rewrite Hp, H2. simpl in H1.
        assert (running (mkThreadPool ws (t :: ts) b) ≡ₚ rest) as H1'
          by (etrans; [|exact H1]; done).
        rewrite H1'. simpl. rewrite <-app_assoc. apply Permutation_app_head.
        symmetry. apply Permutation_cons_append.
    + destruct (running_insert ws i (Running t) Waiting ts b Hi) as (rest & H1 & H2).
      exists taken. split; [done|]. simpl. rewrite Hp, H1. simpl in H2. rewrite H2.
      simpl. rewrite <-app_assoc. by apply Permutation_app_head.
    + by exists taken.
    + by exists taken.
  - rewrite app_nil_r. by exists taken.
Qed.

Lemma accepted_cons (e : event Task) es w :
  accepted (e :: es) w = accepted [e] w ++ accepted es (step w e).
Proof.
  destruct e as [f|i|]; simpl; [|done..].
  unfold enqueue. by destruct (stop (pool w)).
Qed.

Lemma accounted_run es (w : world Task) acc :
  accounted w acc → accounted (run es w) (acc ++ accepted es w).
Proof.
  revert w acc. induction es as [|e es IH]; intros w acc Hacc.
  - simpl. by rewrite app_nil_r.
  - rewrite run_cons, accepted_cons, app_assoc. by apply IH, accounted_step.
Qed.

(** No task is lost or run twice, and the queue is first in, first out: at any
    point of a run the accepted tasks are, in order of acceptance, those the
    workers have taken followed by those still pending, and each task taken is
    either completed or being executed, once. *)
Theorem tasks_accounted (threads : nat) (es : list (event Task)) :
  let w0 := mkWorld (start threads) [] in
  ∃ taken,
    accepted es w0 = taken ++ tasks (pool (run es w0)) ∧
    taken ≡ₚ completed (run es w0) ++ running (pool (run es w0)).
Proof.
  intros w0. apply (accounted_run es w0 []).
  exists []. split; [done|]. simpl. unfold running. simpl.
  induction threads as [|n IH]; [done | exact IH].
Qed.

Lemma accounted_reachable (threads : nat) (es : list (event Task)) :
  accounted (run es (mkWorld (start threads) [])) (accepted es (mkWorld (start threads) [])).
Proof.
  apply (accounted_run es (mkWorld (start threads) []) []).
  exists []. split; [done|]. simpl. unfold running. simpl.
  induction threads as [|n IH]; [done | exact IH].
Qed.

Lemma elem_of_insert_inv {A} (l : list A) i x y :
  x ∈ <[i := y]> l → x = y ∨ x ∈ l.
Proof.
  intros Hin. apply list_elem_of_lookup in Hin as [j Hj].
  apply list_lookup_insert_Some in Hj as [(_ & -> & _)|[_ Hj]]; [by left|].
  right. by eapply list_elem_of_lookup_2.
Qed.

Lemma exited_step (w : world Task) e :
  (Exited ∈ workers (pool w) → stop (pool w) = true ∧ tasks (pool w) = []) →
  Exited ∈ workers (pool (step w e)) →
  stop (pool (step w e)) = true ∧ tasks (pool (step w e)) = [].
Proof.
  destruct w as [[ws ts b] cs]. simpl. intros Hinv.
  destruct e as [f|i|]; simpl.
  - unfold enqueue. simpl. destruct b; simpl; [done|].
    intros Hin. destruct (Hinv Hin) as [? _]. discriminate.
  - unfold work. simpl. destruct (ws !! i) as [[|t|]|] eqn:Hi; simpl; [| |done..].
    + destruct (b || negb (bool_decide (ts = []))) eqn:Hb; [|done].
      destruct ts as [|t ts]; simpl.
      * intros _. split; [|done]. by rewrite orb_false_r in Hb.
      * intros Hin. apply elem_of_insert_inv in Hin as [?|Hin]; [done|].
        destruct (Hinv Hin) as [_ ?]. discriminate.
    + intros Hin. apply elem_of_insert_inv in Hin as [?|Hin]; [done|]. by apply Hinv.
  - intros Hin. split; [done|]. by apply Hinv.
Qed.


(** A worker leaves its loop only after the destructor has set [stop] and the
    queue has been emptied: whenever some worker has exited, [stop] is set and
    no task is pending. *)
Theorem exit_after_drain (threads : nat) (es : list (event Task)) :
  let w := run es (mkWorld (start threads) []) in
  Exited ∈ workers (pool w) → stop (pool w) = true ∧ tasks (pool w) = [].
Proof.
  assert (∀ w : world Task,
            (Exited ∈ workers (pool w) → stop (pool w) = true ∧ tasks (pool w) = []) →
            Exited ∈ workers (pool (run es w)) →
            stop (pool (run es w)) = true ∧ tasks (pool (run es w)) = []) as Hrun.
  { induction es as [|e es IH]; intros w Hinv; [done|].
    rewrite run_cons. apply IH. by apply exited_step. }
  apply Hrun. simpl. intros Hin. by apply elem_of_replicate in Hin as [? _].
Qed.

(** A pool constructed with no worker accepts tasks and never runs any: every
    accepted task stays pending, and none completes. *)
Theorem no_worker_no_progress (es : list (event Task)) :
  let w := run es (mkWorld (start 0) []) in
  completed w = [] ∧ tasks (pool w) = accepted es (mkWorld (start 0) []).
Proof.
  assert (∀ w0 : world Task,
            workers (pool w0) = [] → completed (run es w0) = completed w0) as Hrun.
  { induction es as [|e es IH]; intros w0 H0; [done|].
    rewrite run_cons, IH.
    - destruct e as [f|i|]; simpl; [done| |done].
      unfold work. by rewrite H0.
    - apply length_zero_iff_nil. rewrite step_length. by rewrite H0. }
  intros w.
  assert (workers (pool w) = []) as Hws
    by (apply length_zero_iff_nil, (worker_count 0 es)).
  assert (completed w = []) as Hc by (unfold w; by rewrite Hrun).
  split; [done|].
  destruct (accounted_reachable 0 es) as (taken & Hacc & Hp). fold w in Hacc, Hp.
  unfold running in Hp. rewrite Hc, Hws in Hp. simpl in Hp.
  apply Permutation_nil_r in Hp. subst taken. by rewrite Hacc.
Qed.










End ThreadPool.

Lemma exit_after_drain_witness :
  let w := run [Enqueue 5; Destroy; Work 0; Work 0; Work 0; Work 1]
               (mkWorld (start 2) []) in
  Exited ∈ workers (pool w) ∧ stop (pool w) = true ∧ tasks (pool w) = [].
Proof.
  assert (Exited ∈ workers (pool (run [Enqueue 5; Destroy; Work 0; Work 0; Work 0; Work 1]
                                      (mkWorld (start 2) [])))) as Hex
    by (vm_compute; left).
  split; [exact Hex|].
  apply (exit_after_drain 2 [Enqueue 5; Destroy; Work 0; Work 0; Work 0; Work 1]), Hex.
Defined.


End PoolOrder.

(** ** array::slice *)

Module ArrayFacts.
Import ArrayUtil.
Local Open Scope Z_scope.

Lemma to_int_id z : is_int z → to_int z = z.
Proof. unfold is_int, to_int. intros Hz. rewrite Z.mod_small; lia. Qed.

(** An [int] added to a size in [size_t] and converted back to [int] is the
    plain sum, as long as the size itself fits an [int]. *)
Lemma size_plus_int size z :
  0 ≤ size < 2 ^ 31 → is_int z → z < 0 →
  to_int (to_size_t (size + to_size_t z)) = size + z.
Proof.
  unfold is_int, to_int, to_size_t. intros Hs Hz Hneg.
  assert (z mod 2 ^ 64 = z + 2 ^ 64) as ->.
  { symmetry. apply (Z.mod_unique _ _ (-1)); lia. }
  destruct (Z.le_gt_cases 0 (size + z)) as [Hnn|Hn].
  - assert ((size + (z + 2 ^ 64)) mod 2 ^ 64 = size + z) as ->.
    { symmetry. apply (Z.mod_unique _ _ 1); lia. }
    rewrite Z.mod_small; lia.
  - rewrite (Z.mod_small (size + (z + 2 ^ 64))) by lia.
    assert ((size + (z + 2 ^ 64) + 2 ^ 31) mod 2 ^ 32 = size + z + 2 ^ 31) as ->.
    { symmetry. apply (Z.mod_unique _ _ (2 ^ 32)); lia. }
    lia.
Qed.

Section Slice.
Context {T : Type}.

Lemma slice_normalised (data : list T) (start end_ : Z) :
  Z.of_nat (length data) < 2 ^ 31 → is_int start → is_int end_ →
  slice data start end_ =
    let size := Z.of_nat (length data) in
    let s := clamp size (from_end size start) in
    let e := clamp size (if end_ =? -1 then size else from_end size end_) in
    if s <=? e then Some (take (Z.to_nat (e - s)) (drop (Z.to_nat s) data))
    else None.
Proof.
  intros Hsize Hstart Hend. cbv zeta. set (size := Z.of_nat (length data)) in *.
  assert (0 ≤ size < 2 ^ 31) as Hs by (unfold size; lia).
  assert (is_int size) as Hsi by (unfold is_int; lia).
  unfold slice. fold size. rewrite (to_int_id size Hsi).
  assert ((if start <? 0 then to_int (to_size_t (size + to_size_t start)) else start)
          = from_end size start) as ->.
  { unfold from_end. destruct (Z.ltb_spec start 0); [|done].
    by apply size_plus_int. }
  assert ((if (if end_ =? -1 then size else end_) <? 0
           then to_int (to_size_t (size + to_size_t (if end_ =? -1 then size else end_)))
           else if end_ =? -1 then size else end_)
          = (if end_ =? -1 then size else from_end size end_)) as ->.
  { unfold from_end. destruct (Z.eqb_spec end_ (-1)).
    - destruct (Z.ltb_spec size 0); [lia | done].
    - destruct (Z.ltb_spec end_ 0); [|done]. by apply size_plus_int. }
  done.
Qed.

(** For a vector shorter than [2^31] and arguments of type [int], none of the
    conversions in [slice] wraps: a negative index counts from the end, [-1]
    as [end] stands for the size, both indices are clamped to [0 .. size], and
    the elements between them are returned, as many as the indices are apart;
    an inverted range is undefined. *)
Theorem slice_no_wrap (data : list T) (start end_ : Z) :
  Z.of_nat (length data) < 2 ^ 31 → is_int start → is_int end_ →
  let size := Z.of_nat (length data) in
  let s := clamp size (from_end size start) in
  let e := clamp size (if end_ =? -1 then size else from_end size end_) in
  slice data start end_ =
    (if s <=? e then Some (take (Z.to_nat (e - s)) (drop (Z.to_nat s) data))
     else None) ∧
  ∀ l, slice data start end_ = Some l → Z.of_nat (length l) = e - s.
Proof.
  intros Hsize Hstart Hend size s e.
  pose proof (slice_normalised data start end_ Hsize Hstart Hend) as Hn.
  cbv zeta in Hn. fold size in Hn. fold s e in Hn.
  split; [exact Hn|]. rewrite Hn. intros l.
  destruct (Z.leb_spec s e); [|discriminate]. intros [= <-].
  rewrite length_take, length_drop.
  assert (0 ≤ s ≤ size ∧ 0 ≤ e ≤ size) by (unfold s, e, clamp, size; lia).
  unfold size in *. lia.
Qed.

(** Two indices in range and in order select exactly the elements from
    [start] up to [end], excluded. *)
Theorem slice_range (data : list T) (start end_ : Z) :
  Z.of_nat (length data) < 2 ^ 31 →
  0 ≤ start ≤ end_ → end_ ≤ Z.of_nat (length data) →
  slice data start end_ =
    Some (take (Z.to_nat (end_ - start)) (drop (Z.to_nat start) data)) ∧
  ∀ l, slice data start end_ = Some l → Z.of_nat (length l) = end_ - start.
Proof.
  intros Hsize Hse He.
  assert (slice data start end_ =
          Some (take (Z.to_nat (end_ - start)) (drop (Z.to_nat start) data))) as Hsl.
  { rewrite slice_normalised by (unfold is_int; lia). cbv zeta.
    destruct (Z.eqb_spec end_ (-1)); [lia|].
    unfold from_end, clamp.
    destruct (Z.ltb_spec start 0); [lia|]. destruct (Z.ltb_spec end_ 0); [lia|].
    rewrite !Z.min_l, !Z.max_r by lia.
    destruct (Z.leb_spec start end_); [done | lia]. }
  split; [done|]. rewrite Hsl. intros l [= <-].
  rewrite length_take, length_drop. lia.
Qed.

(** With [end] left at its default [-1] the slice runs to the end of the data
    and is always defined: from [start] on for a [start] that is not negative,
    the last [-start] elements for a negative one, everything when that is
    more than there is.  So [-1] as [end] never means "all but the last". *)
Theorem slice_default_end (data : list T) (start : Z) :
  Z.of_nat (length data) < 2 ^ 31 → is_int start →
  slice data start (-1) =
    Some (drop (Z.to_nat (if start <? 0 then Z.of_nat (length data) + start else start))
               data).
Proof.
  intros Hsize Hstart.
  rewrite slice_normalised by (done || unfold is_int; lia). cbv zeta. simpl (_ =? _).
  cbv iota. unfold clamp, from_end.
  set (size := Z.of_nat (length data)) in *.
  rewrite (Z.min_l size size), (Z.max_r 0 size) by lia.
  set (i := if start <? 0 then size + start else start).
  destruct (Z.leb_spec (Z.max 0 (Z.min i size)) size); [|lia]. f_equal.
  destruct (Z.le_gt_cases i size) as [Hi|Hi].
  - rewrite Z.min_l by lia.
    replace (Z.to_nat (Z.max 0 i)) with (Z.to_nat i) by lia.
    apply take_ge. rewrite length_drop. lia.
  - rewrite Z.min_r, Z.max_r by lia.
    rewrite !drop_ge by lia. by rewrite take_nil.
Qed.

Lemma to_int_le (z : Z) : 0 ≤ z → to_int z ≤ z.
Proof.
  intros Hz. unfold to_int.
  pose proof (Z.mod_pos_bound (z + 2 ^ 31) (2 ^ 32) ltac:(lia)) as Hm.
  pose proof (Z.mod_le (z + 2 ^ 31) (2 ^ 32) ltac:(lia) ltac:(lia)). lia.
Qed.

(** Whatever the arguments and however long the vector, the two iterators
    [slice] forms point into the vector: both offsets are between 0 and the
    size.  They are the offsets [slice] builds its result from, and the result
    has as many elements as they are apart. *)
Theorem slice_in_bounds (data : list T) (start end_ : Z) :
  let size := Z.of_nat (length data) in
  let a := (slice_offsets data start end_).1 in
  let b := (slice_offsets data start end_).2 in
  0 ≤ a ≤ size ∧ 0 ≤ b ≤ size ∧
  slice data start end_ =
    (if a <=? b then Some (take (Z.to_nat (b - a)) (drop (Z.to_nat a) data))
     else None) ∧
  ∀ l, slice data start end_ = Some l → Z.of_nat (length l) = b - a.
Proof.
  intros size a b.
  pose proof (to_int_le size ltac:(unfold size; lia)) as Hsz.
  assert (0 ≤ a ≤ size ∧ 0 ≤ b ≤ size) as [Ha Hb].
  { unfold a, b, slice_offsets. cbn [fst snd]. fold size. lia. }
  assert (slice data start end_ =
          (if a <=? b then Some (take (Z.to_nat (b - a)) (drop (Z.to_nat a) data))
           else None)) as Hsl by reflexivity.
  split; [done|]. split; [done|]. split; [done|].
  rewrite Hsl. intros l. destruct (Z.leb_spec a b); [|discriminate].
  intros [= <-]. rewrite length_take, length_drop. unfold size in *. lia.
Qed.

(** Indices in range but in the wrong order hand the vector constructor an
    inverted range. *)
Theorem slice_inverted (data : list T) (start end_ : Z) :
  Z.of_nat (length data) < 2 ^ 31 →
  0 ≤ end_ → end_ < start → start ≤ Z.of_nat (length data) →
  slice data start end_ = None.
Proof.
  intros Hsize He Hlt Hs.
  rewrite slice_normalised by (unfold is_int; lia). cbv zeta.
  destruct (Z.eqb_spec end_ (-1)); [lia|]. unfold from_end, clamp.
  destruct (Z.ltb_spec start 0); [lia|]. destruct (Z.ltb_spec end_ 0); [lia|].
  rewrite !Z.min_l, !Z.max_r by lia.
  destruct (Z.leb_spec start end_); [lia | done].
Qed.

End Slice.

Lemma slice_no_wrap_witness :
  Z.of_nat (length [10; 20; 30; 40; 50]%nat) < 2 ^ 31 ∧ is_int (-3) ∧ is_int (-1) ∧
  slice [10; 20; 30; 40; 50]%nat (-3) (-1) = Some [30; 40; 50]%nat ∧
  ∀ l, slice [10; 20; 30; 40; 50]%nat (-3) (-1) = Some l → Z.of_nat (length l) = 5 - 2.
Proof.
  split; [simpl; lia|]. split; [unfold is_int; lia|]. split; [unfold is_int; lia|].
  destruct (slice_no_wrap [10; 20; 30; 40; 50]%nat (-3) (-1))
    as [H1 H2]; [simpl; lia | unfold is_int; lia | unfold is_int; lia|].
  split; [reflexivity | exact H2].
Defined.

Lemma slice_range_witness :
  Z.of_nat (length [10; 20; 30; 40; 50]%nat) < 2 ^ 31 ∧ 0 ≤ 1 ≤ 3 ∧
  3 ≤ Z.of_nat (length [10; 20; 30; 40; 50]%nat) ∧
  slice [10; 20; 30; 40; 50]%nat 1 3 = Some [20; 30]%nat.
Proof.
  split; [simpl; lia|]. split; [lia|]. split; [simpl; lia|].
  rewrite (proj1 (slice_range [10; 20; 30; 40; 50]%nat 1 3
                    ltac:(simpl; lia) ltac:(lia) ltac:(simpl; lia))).
  reflexivity.
Defined.

Lemma slice_default_end_witness :
  Z.of_nat (length [10; 20; 30]%nat) < 2 ^ 31 ∧ is_int 0 ∧
  slice [10; 20; 30]%nat 0 (-1) = Some [10; 20; 30]%nat.
Proof.
  split; [simpl; lia|]. split; [unfold is_int; lia|].
  rewrite (slice_default_end [10; 20; 30]%nat 0); [reflexivity | simpl; lia | unfold is_int; lia].
Defined.

Example slice_in_bounds_example :
  slice_offsets [10; 20; 30; 40]%nat (-9) 7 = (0, 4) ∧
  slice [10; 20; 30; 40]%nat (-9) 7 = Some [10; 20; 30; 40]%nat ∧
  slice_offsets [10; 20; 30; 40]%nat 1 (-2) = (1, 2) ∧
  slice [10; 20; 30; 40]%nat 1 (-2) = Some [20]%nat.
Proof. repeat split. Qed.

Lemma slice_inverted_witness :
  Z.of_nat (length [10; 20; 30]%nat) < 2 ^ 31 ∧ 0 ≤ 1 ∧ 1 < 2 ∧
  2 ≤ Z.of_nat (length [10; 20; 30]%nat) ∧
  slice [10; 20; 30]%nat 2 1 = None.
Proof.
  split; [simpl; lia|]. split; [lia|]. split; [lia|]. split; [simpl; lia|].
  apply (slice_inverted [10; 20; 30]%nat 2 1); simpl; lia.
Defined.

End ArrayFacts.

(** ** namespace string *)

Module StringFacts.
Import StringUtil.

Section Strings.
Context {C : Type} `{EqDecision C}.

Lemma find_first_nil (s : list C) : find_first [] s = Some 0.
Proof.
  by destruct s.
Qed.

(** Where [find_first] finds [d], [d] is, and nowhere before. *)
Lemma find_first_Some (d s : list C) i :
  find_first d s = Some i →
  i + length d ≤ length s ∧ take (length d) (drop i s) = d ∧
  ∀ j, j < i → ¬ d `prefix_of` drop j s.
Proof.
  revert i. induction s as [|c s IH]; intros i; simpl.
  - case_bool_decide as Hp; [|done]. intros [= <-].
    apply prefix_nil_inv in Hp. subst d. repeat split; [done|]. lia.
  - case_bool_decide as Hp.
    + intros [= <-]. destruct Hp as [k Hk]. simpl.
      assert (length (c :: s) = length d + length k) as Hlen
        by (by rewrite Hk, length_app).
      simpl in Hlen. split; [lia|]. split; [|lia].
      change (take (length d) (c :: s) = d). rewrite Hk. apply take_app_length.
    + destruct (find_first d s) as [i'|] eqn:E; [|done]. simpl. intros [= <-].
      destruct (IH i' eq_refl) as (Hlen & Htake & Hmin).
      split; [simpl; lia|]. split; [done|].
      intros [|j] Hj; simpl; [done|]. apply Hmin. lia.
Qed.

Lemma find_first_None (d s : list C) :
  find_first d s = None → ∀ j, ¬ d `prefix_of` drop j s.
Proof.
  induction s as [|c s IH]; simpl.
  - case_bool_decide as Hp; [done|]. intros _ j. by rewrite drop_nil.
  - case_bool_decide as Hp; [done|].
    destruct (find_first d s) eqn:E; [done|]. intros _ [|j]; simpl; [done|].
    by apply IH.
Qed.

Lemma pieces_nonempty fuel (d s : list C) ps : pieces fuel d s = Some ps → ps ≠ [].
Proof.
  destruct fuel; simpl; destruct (find_first d s); try done.
  - by intros [= <-].
  - destruct (pieces fuel d _); simpl; [by intros [= <-] | done].
  - by intros [= <-].
Qed.

(** With a [d] that is not empty every round moves on, and fuel beyond the
    length of the string is never used up. *)
Lemma pieces_enough fuel (d s : list C) :
  0 < length d → length s < fuel → is_Some (pieces fuel d s).
Proof.
  intros Hd. revert s. induction fuel as [|fuel IH]; intros s Hs; [lia|].
  simpl. destruct (find_first d s) as [i|] eqn:E; [|by eexists].
  apply find_first_Some in E as (Hlen & _).
  destruct (IH (drop (i + length d) s)) as [ps Hps].
  { rewrite length_drop. lia. }
  rewrite Hps. by eexists.
Qed.

Lemma pieces_fuel fuel1 fuel2 (d s : list C) :
  0 < length d → length s < fuel1 → length s < fuel2 →
  pieces fuel1 d s = pieces fuel2 d s.
Proof.
  intros Hd. revert fuel2 s. induction fuel1 as [|fuel1 IH]; intros fuel2 s H1 H2; [lia|].
  destruct fuel2 as [|fuel2]; [lia|]. simpl.
  destruct (find_first d s) as [i|] eqn:E; [|done].
  apply find_first_Some in E as (Hlen & _).
  rewrite (IH fuel2); [done | rewrite length_drop; lia..].
Qed.

Lemma pieces_empty_delimiter fuel (s : list C) : pieces fuel [] s = None.
Proof.
  revert s. induction fuel as [|fuel IH]; intros s; simpl;
    rewrite find_first_nil; [done|]. by rewrite IH.
Qed.

Lemma join_acc (d a b : list C) (ps : list (list C)) :
  foldl (λ result s, result ++ (d ++ s)) (a ++ b) ps
  = a ++ foldl (λ result s, result ++ (d ++ s)) b ps.
Proof.
  revert b. induction ps as [|p ps IH]; intros b; simpl; [done|].
  by rewrite <-app_assoc, IH.
Qed.

Lemma join_cons (d x : list C) (ps : list (list C)) :
  ps ≠ [] → join (x :: ps) d = x ++ d ++ join ps d.
Proof.
  destruct ps as [|y ps]; [done|]. intros _. simpl.
  by rewrite (join_acc d x (d ++ y)), (join_acc d d y).
Qed.

Lemma join_snoc (d x : list C) (ps : list (list C)) :
  ps ≠ [] → join (ps ++ [x]) d = join ps d ++ d ++ x.
Proof.
  destruct ps as [|y ps]; [done|]. intros _. simpl. by rewrite foldl_snoc.
Qed.

(** Joining the pieces with the delimiter gives the string back, and the
    delimiter occurs in no piece. *)
Lemma pieces_spec fuel (d s : list C) ps :
  0 < length d → pieces fuel d s = Some ps →
  join ps d = s ∧ Forall (λ p, ¬ occurs d p) ps.
Proof.
  intros Hd. revert s ps. induction fuel as [|fuel IH]; intros s ps; simpl;
    destruct (find_first d s) as [i|] eqn:E; try done.
  - intros [= <-]. split; [done|]. constructor; [|done].
    intros [j Hj]. by apply (find_first_None d s E j).
  - destruct (pieces fuel d (drop (i + length d) s)) as [ps'|] eqn:E'; [|done].
    simpl. intros [= <-].
    destruct (IH _ _ E') as [Hjoin Hall].
    apply find_first_Some in E as (Hlen & Htake & Hmin).
    split.
    + rewrite join_cons by by eapply pieces_nonempty.
      rewrite Hjoin. rewrite <-Htake at 1.
      rewrite <-drop_drop, take_drop. apply take_drop.
    + constructor; [|done]. intros [j Hj].
      destruct (decide (j < i)) as [Hji|Hji].
      * apply (Hmin j Hji). etrans; [exact Hj|].
        rewrite skipn_firstn_comm. apply prefix_take.
      * rewrite drop_ge in Hj by (rewrite length_take; lia).
        apply prefix_nil_inv in Hj. subst d. simpl in Hd. lia.
  - intros [= <-]. split; [done|]. constructor; [|done].
    intros [j Hj]. by apply (find_first_None d s E j).
Qed.

(** The loop of [split] from position [start] on cuts off the pieces of the
    rest of the string. *)
Lemma split_loop_pieces fuel (str d : list C) result start :
  start ≤ length str →
  split_loop fuel str d result start (find str d start)
  = (result ++.) <$> pieces fuel d (drop start str).
Proof.
  revert result start. induction fuel as [|fuel IH]; intros result start Hstart;
    unfold find; rewrite decide_True by done; simpl;
    destruct (find_first d (drop start str)) as [i|] eqn:E; simpl; try done.
  apply find_first_Some in E as (Hlen & _). rewrite length_drop in Hlen.
  rewrite IH by lia.
  replace (start + i - start) with i by lia. unfold substr.
  rewrite drop_drop, <-Nat.add_assoc.
  destruct (pieces fuel d (drop (start + (i + length d)) str)); simpl; [|done].
  by rewrite <-app_assoc.
Qed.

(** The loop of [replace] from position [pos] on keeps what is before [pos]
    and puts [to] between the pieces of the rest. *)
Lemma replace_loop_pieces fuel (from to result : list C) pos :
  pos ≤ length result →
  replace_loop fuel from to result pos
  = (λ ps, take pos result ++ join ps to) <$> pieces fuel from (drop pos result).
Proof.
  revert result pos. induction fuel as [|fuel IH]; intros result pos Hpos;
    simpl; unfold find; rewrite decide_True by done;
    destruct (find_first from (drop pos result)) as [i|] eqn:E; simpl; try done.
  - by rewrite take_drop.
  - apply find_first_Some in E as (Hlen & _). rewrite length_drop in Hlen.
    unfold replace_at.
    assert (length (take (pos + i) result) = pos + i) as Htl
      by (rewrite length_take; lia).
    rewrite IH by (rewrite !length_app, Htl; lia).
    rewrite app_assoc, drop_app_length'
      by (rewrite length_app, Htl; lia).
    rewrite drop_drop, Nat.add_assoc.
    destruct (pieces fuel from (drop (pos + i + length from) result)) as [ps|] eqn:E';
      simpl; [|done].
    f_equal. rewrite take_app_length' by (rewrite length_app, Htl; lia).
    change (foldl _ (take i (drop pos result)) ps)
      with (join (take i (drop pos result) :: ps) to).
    rewrite join_cons by by eapply pieces_nonempty.
    rewrite !app_assoc. do 2 f_equal. by rewrite take_take_drop.
  - by rewrite take_drop.
Qed.

(** [split] and [join] round trip.  For a delimiter that is not empty, [split]
    returns (fuel beyond the length of the string is enough, and more changes
    nothing), it returns at least one piece, the delimiter occurs in no piece,
    and joining the pieces with the delimiter gives the string back. *)
Theorem split_join (str d : list C) :
  0 < length d →
  ∃ ps, (∀ fuel, length str < fuel → split fuel str d = Some ps) ∧
        ps ≠ [] ∧
        Forall (λ p, ¬ occurs d p) ps ∧
        join ps d = str.
Proof.
  intros Hd.
  destruct (pieces_enough (S (length str)) d str Hd ltac:(lia)) as [ps Hps].
  exists ps. destruct (pieces_spec _ d str ps Hd Hps) as [Hjoin Hall].
  split; [|split; [by eapply pieces_nonempty | done]].
  intros fuel Hfuel. unfold split. rewrite split_loop_pieces by lia.
  rewrite drop_0, (pieces_fuel fuel (S (length str))), Hps by (done || lia).
  done.
Qed.

(** With the empty delimiter [find] finds it at once at every position and
    [start] never advances: [split] appends empty pieces for ever. *)
Theorem split_empty_delimiter (fuel : nat) (str : list C) :
  split fuel str [] = None.
Proof.
  unfold split. rewrite split_loop_pieces by lia.
  by rewrite pieces_empty_delimiter.
Qed.

(** [replace] is [split] followed by [join]: for a [from] that is not empty it
    returns the pieces [split] cuts at [from], joined with [to]. *)
Theorem replace_split_join (str from to : list C) :
  0 < length from →
  ∃ ps, (∀ fuel, length str < fuel →
           split fuel str from = Some ps ∧
           replace fuel str from to = Some (join ps to)).
Proof.
  intros Hd.
  destruct (pieces_enough (S (length str)) from str Hd ltac:(lia)) as [ps Hps].
  exists ps. intros fuel Hfuel.
  assert (pieces fuel from str = Some ps) as Hp
    by (rewrite (pieces_fuel fuel (S (length str))); (done || lia)).
  unfold split, replace.
  rewrite split_loop_pieces, replace_loop_pieces by lia.
  by rewrite drop_0, Hp.
Qed.

(** With an empty [from] every search succeeds where it starts: [replace]
    inserts [to] for ever. *)
Theorem replace_empty_from (fuel : nat) (str to : list C) :
  replace fuel str [] to = None.
Proof.
  unfold replace. rewrite replace_loop_pieces by lia.
  by rewrite pieces_empty_delimiter.
Qed.

(** [starts_with] and [ends_with] decide "is a prefix of" and "is a suffix
    of"; a candidate longer than the string is rejected without comparing. *)
Theorem starts_ends_with (str other : list C) :
  (starts_with str other = true ↔ other `prefix_of` str) ∧
  (ends_with str other = true ↔ other `suffix_of` str).
Proof.
  unfold starts_with, ends_with, compare_eq, substr. split.
  - rewrite andb_true_iff, !bool_decide_eq_true, drop_0. split.
    + intros [_ <-]. apply prefix_take.
    + intros [k ->]. rewrite length_app, take_app_length. split; [lia | done].
  - rewrite andb_true_iff, !bool_decide_eq_true. split.
    + intros [_ Heq]. rewrite <-Heq. rewrite take_ge by (rewrite length_drop; lia).
      apply suffix_drop.
    + intros [k ->]. rewrite length_app. split; [lia|].
      replace (length k + length other - length other) with (length k) by lia.
      rewrite drop_app_length. apply take_ge. lia.
Qed.

End Strings.

Example split_example :
  split 10 [1; 0; 2; 3; 0; 0; 4] [0] = Some [[1]; [2; 3]; []; [4]].
Proof. vm_compute. reflexivity. Qed.

Example replace_example :
  replace 10 [1; 0; 2; 3; 0; 0; 4] [0] [9; 9] = Some [1; 9; 9; 2; 3; 9; 9; 9; 9; 4].
Proof. vm_compute. reflexivity. Qed.

Lemma split_join_witness :
  0 < length [0; 0] ∧
  ∃ ps, (∀ fuel, length [1; 0; 0; 0; 2] < fuel →
           split fuel [1; 0; 0; 0; 2] [0; 0] = Some ps) ∧
        ps ≠ [] ∧
        Forall (λ p, ¬ occurs [0; 0] p) ps ∧
        join ps [0; 0] = [1; 0; 0; 0; 2].
Proof.
  split; [simpl; lia|]. apply (split_join [1; 0; 0; 0; 2] [0; 0]). simpl. lia.
Defined.

Lemma replace_split_join_witness :
  0 < length [0] ∧
  ∃ ps, (∀ fuel, length [1; 0; 2] < fuel →
           split fuel [1; 0; 2] [0] = Some ps ∧
           replace fuel [1; 0; 2] [0] [7; 7] = Some (join ps [7; 7])).
Proof.
  split; [simpl; lia|]. apply (replace_split_join [1; 0; 2] [0] [7; 7]). simpl. lia.
Defined.

End StringFacts.

(** ** namespace net *)

Module NetFacts.
Import Stdlib.Strings.Ascii Stdlib.NArith.BinNat.
Import Net.
Local Open Scope N_scope.

Lemma unreserved_plain (c : ascii) :
  unreserved c = true → c ≠ "%"%char ∧ c ≠ "+"%char.
Proof. intros Hc. split; intros ->; vm_compute in Hc; discriminate. Qed.

Lemma N_below_16 (a : N) :
  a < 16 →
  a = 0 ∨ a = 1 ∨ a = 2 ∨ a = 3 ∨ a = 4 ∨ a = 5 ∨ a = 6 ∨ a = 7 ∨
  a = 8 ∨ a = 9 ∨ a = 10 ∨ a = 11 ∨ a = 12 ∨ a = 13 ∨ a = 14 ∨ a = 15.
Proof. lia. Qed.

Lemma hex_digit_unreserved (a : N) : a < 16 → unreserved (hex_digit a) = true.
Proof.
  intros Ha. apply N_below_16 in Ha.
  repeat (destruct Ha as [->|Ha]; [reflexivity|]). by subst a.
Qed.

Lemma hex_value_of_digit (a : N) : a < 16 → hex_value_of (hex_digit a) = Some a.
Proof.
  intros Ha. apply N_below_16 in Ha.
  repeat (destruct Ha as [->|Ha]; [reflexivity|]). by subst a.
Qed.

Lemma byte_nibbles (c : ascii) :
  N_of_ascii c / 16 < 16 ∧ N_of_ascii c mod 16 < 16 ∧
  16 * (N_of_ascii c / 16) + N_of_ascii c mod 16 = N_of_ascii c.
Proof.
  pose proof (N_ascii_bounded c) as Hb.
  split; [apply N.Div0.div_lt_upper_bound; lia|].
  split; [apply N.mod_lt; lia|].
  symmetry. apply N.div_mod. lia.
Qed.

Lemma to_char_byte (c : ascii) : to_char (Z.of_N (N_of_ascii c)) = c.
Proof.
  unfold to_char. pose proof (N_ascii_bounded c) as Hb.
  rewrite Z.mod_small by lia. rewrite N2Z.id. apply ascii_N_embedding.
Qed.

Lemma url_encode_cons (c : ascii) (value : list ascii) :
  url_encode (c :: value)
  = (if unreserved c then [c] else escape c) ++ url_encode value.
Proof. unfold url_encode. by rewrite bind_cons. Qed.

Section Decode.
Variable extract_hex : list ascii → option Z.

(** The extraction reads two lower-case hexadecimal digits as the number they
    write. *)
Hypothesis extract_hex_digits_ok : ∀ a b : N,
  a < 16 → b < 16 →
  extract_hex [hex_digit a; hex_digit b] = Some (Z.of_N (16 * a + b)).

Lemma decode_encode_id (value : list ascii) :
  url_decode extract_hex (url_encode value) = value.
Proof.
  induction value as [|c value IH]; [done|].
  rewrite url_encode_cons. remember (url_encode value) as enc eqn:Henc.
  destruct (unreserved c) eqn:Hc.
  - destruct (unreserved_plain c Hc) as [H1 H2]. simpl.
    rewrite decide_False, decide_False by done. by rewrite IH.
  - destruct (byte_nibbles c) as (Ha & Hb & Hab).
    unfold escape. simpl. rewrite extract_hex_digits_ok by done.
    by rewrite Hab, to_char_byte, IH.
Qed.

(** [url_decode] undoes [url_encode], for every string of bytes; so no two
    strings have the same encoding. *)
Theorem url_decode_encode (value : list ascii) :
  url_decode extract_hex (url_encode value) = value ∧
  ∀ other, url_encode other = url_encode value → other = value.
Proof.
  split; [apply decode_encode_id|]. intros other Heq.
  rewrite <-(decode_encode_id other), <-(decode_encode_id value).
  by rewrite Heq.
Qed.

End Decode.

Lemma url_encode_chars (value : list ascii) :
  Forall (λ c, unreserved c = true ∨ c = "%"%char) (url_encode value).
Proof.
  induction value as [|c value IH]; [constructor|].
  rewrite url_encode_cons. remember (url_encode value) as enc eqn:Henc.
  destruct (unreserved c) eqn:Hc.
  - constructor; [by left | done].
  - destruct (byte_nibbles c) as (Ha & Hb & _). unfold escape.
    constructor; [by right|].
    constructor; [left; by apply hex_digit_unreserved|].
    constructor; [left; by apply hex_digit_unreserved | done].
Qed.

(** The output of [url_encode] is made of letters, digits, [-], [_], [.], [~]
    and [%] only, and has between one and three characters for each
    character of the input. *)
Theorem url_encode_alphabet (value : list ascii) :
  Forall (λ c, unreserved c = true ∨ c = "%"%char) (url_encode value) ∧
  (length value ≤ length (url_encode value) ≤ 3 * length value)%nat.
Proof.
  split; [apply url_encode_chars|].
  induction value as [|c value IH]; [simpl; lia|].
  rewrite url_encode_cons, length_app.
  destruct (unreserved c); simpl in *; lia.
Qed.

Lemma extract_hex_digits_spec (a b : N) :
  a < 16 → b < 16 →
  extract_hex_digits [hex_digit a; hex_digit b] = Some (Z.of_N (16 * a + b)).
Proof.
  intros Ha Hb. unfold extract_hex_digits.
  by rewrite (hex_value_of_digit a Ha), (hex_value_of_digit b Hb).
Qed.

Lemma url_decode_encode_witness :
  (∀ a b : N, a < 16 → b < 16 →
     extract_hex_digits [hex_digit a; hex_digit b] = Some (Z.of_N (16 * a + b))) ∧
  url_decode extract_hex_digits (url_encode (String.list_ascii_of_string "a b&c=100%+"))
  = String.list_ascii_of_string "a b&c=100%+" ∧
  ∀ other, url_encode other = url_encode (String.list_ascii_of_string "a b&c=100%+") →
           other = String.list_ascii_of_string "a b&c=100%+".
Proof.
  split; [exact extract_hex_digits_spec|].
  apply (url_decode_encode extract_hex_digits extract_hex_digits_spec).
Defined.

Example url_encode_example :
  url_encode (String.list_ascii_of_string "a b&c=100%+~")
  = String.list_ascii_of_string "a%20b%26c%3d100%25%2b~".
Proof. vm_compute. reflexivity. Qed.

End NetFacts.

(** ** algorithm::generate_sequence *)

Module SequenceFacts.
Import Sequence.
Local Open Scope Z_scope.

Lemma fits_int_true z : - 2 ^ 31 ≤ z < 2 ^ 31 → fits_int z = true.
Proof.
  intros Hz. unfold fits_int. apply andb_true_iff.
  split; [apply Z.leb_le | apply Z.ltb_lt]; lia.
Qed.

Lemma progression_S i step n :
  progression i step (S n) = i :: progression (i + step) step n.
Proof.
  unfold progression. simpl. f_equal; [lia|].
  rewrite <-fmap_S_seq, <-list_fmap_compose. apply list_fmap_ext.
  intros _ k _. simpl. lia.
Qed.

Lemma generate_loop_terms (n : nat) :
  ∀ fuel i end_ step result,
    (n ≤ fuel)%nat → 0 < step → - 2 ^ 31 ≤ i → end_ + step < 2 ^ 31 →
    (∀ k, (k < n)%nat → i + Z.of_nat k * step ≤ end_) →
    end_ < i + Z.of_nat n * step →
    generate_loop fuel i end_ step result = Done (result ++ progression i step n).
Proof.
  induction n as [|n IH]; intros fuel i end_ step result Hfuel Hstep Hi Hend Hin Hout.
  - destruct fuel; simpl; (destruct (Z.leb_spec i end_); [lia|]);
      by rewrite app_nil_r.
  - destruct fuel as [|fuel]; [lia|]. simpl.
    pose proof (Hin 0%nat ltac:(lia)) as H0.
    destruct (Z.leb_spec i end_); [|lia].
    rewrite fits_int_true by lia.
    rewrite (IH fuel (i + step) end_ step (result ++ [i])); try lia.
    + by rewrite progression_S, <-app_assoc.
    + intros k Hk. pose proof (Hin (S k) ltac:(lia)). lia.
Qed.

(** For a positive step, bounds in order and room for the last increment
    below [INT_MAX], the result is [start], [start + step], ... up to the last
    term not above [end]: [(end - start) / step + 1] terms.  That many rounds
    of fuel are enough. *)
Theorem generate_sequence_terms (fuel : nat) (start end_ step : Z) :
  0 < step < 2 ^ 31 → - 2 ^ 31 ≤ start → start ≤ end_ → end_ + step < 2 ^ 31 →
  (Z.to_nat ((end_ - start) / step + 1) ≤ fuel)%nat →
  generate_sequence fuel start end_ step
  = Done (progression start step (Z.to_nat ((end_ - start) / step + 1))).
Proof.
  intros [Hstep _] Hstart Hle Hend Hfuel.
  pose proof (Z.div_pos (end_ - start) step ltac:(lia) Hstep) as Hq.
  pose proof (Z.mul_div_le (end_ - start) step Hstep) as Hlo.
  pose proof (Z.mul_succ_div_gt (end_ - start) step Hstep) as Hhi.
  unfold generate_sequence.
  rewrite (generate_loop_terms (Z.to_nat ((end_ - start) / step + 1)));
    [done | done | done | done | done | |].
  - intros k Hk. nia.
  - rewrite Z2Nat.id by lia. lia.
Qed.

(** With [start] above [end] the result is empty, whatever the step. *)
Theorem generate_sequence_empty (fuel : nat) (start end_ step : Z) :
  end_ < start → generate_sequence fuel start end_ step = Done [].
Proof.
  intros Hlt. unfold generate_sequence.
  destruct fuel; simpl; by destruct (Z.leb_spec start end_); [lia|].
Qed.

Lemma generate_loop_stuck fuel i end_ step result :
  step ≤ 0 → i ≤ end_ →
  ∀ l, generate_loop fuel i end_ step result ≠ Done l.
Proof.
  intros Hstep. revert i result. induction fuel as [|fuel IH]; intros i result Hi l;
    simpl; (destruct (Z.leb_spec i end_); [|lia]); [done|].
  destruct (fits_int (i + step)); [|done]. apply IH. lia.
Qed.

(** With bounds in order and a step that is zero or negative the loop
    condition never fails: the call does not return; it runs for ever or
    into the overflow of [i]. *)
Theorem generate_sequence_no_return (fuel : nat) (start end_ step : Z) (l : list Z) :
  step ≤ 0 → start ≤ end_ → generate_sequence fuel start end_ step ≠ Done l.
Proof. intros Hstep Hle. by apply generate_loop_stuck. Qed.

Lemma generate_loop_int_max fuel i step result :
  i < 2 ^ 31 → ∀ l, generate_loop fuel i (2 ^ 31 - 1) step result ≠ Done l.
Proof.
  revert i result. induction fuel as [|fuel IH]; intros i result Hi l;
    simpl; (destruct (Z.leb_spec i (2 ^ 31 - 1)); [|lia]); [done|].
  destruct (fits_int (i + step)) eqn:Hf; [|done]. apply IH.
  unfold fits_int in Hf. apply andb_true_iff in Hf as [_ Hf].
  by apply Z.ltb_lt in Hf.
Qed.

(** With [INT_MAX] as [end] no value of [i] is above it: the call never
    returns a sequence. *)
Theorem generate_sequence_int_max (fuel : nat) (start step : Z) (l : list Z) :
  start < 2 ^ 31 → generate_sequence fuel start (2 ^ 31 - 1) step ≠ Done l.
Proof. intros Hs. by apply generate_loop_int_max. Qed.

Lemma generate_sequence_terms_witness :
  0 < 3 < 2 ^ 31 ∧ - 2 ^ 31 ≤ 2 ∧ 2 ≤ 12 ∧ 12 + 3 < 2 ^ 31 ∧
  (Z.to_nat ((12 - 2) / 3 + 1) ≤ 5)%nat ∧
  generate_sequence 5 2 12 3 = Done [2; 5; 8; 11].
Proof.
  split; [lia|]. split; [lia|]. split; [lia|]. split; [lia|].
  split; [vm_compute; lia|].
  rewrite (generate_sequence_terms 5 2 12 3);
    [reflexivity | lia | lia | lia | lia | vm_compute; lia].
Defined.

Lemma generate_sequence_empty_witness :
  3 < 5 ∧ generate_sequence 0 5 3 (-1) = Done [].
Proof. split; [lia|]. apply (generate_sequence_empty 0 5 3 (-1)). lia. Defined.

Lemma generate_sequence_no_return_witness :
  0 ≤ 0 ∧ 1 ≤ 2 ∧ generate_sequence 4 1 2 0 ≠ Done [1; 1; 1; 1].
Proof.
  split; [lia|]. split; [lia|].
  apply (generate_sequence_no_return 4 1 2 0 [1; 1; 1; 1]); lia.
Defined.

Lemma generate_sequence_int_max_witness :
  2 ^ 31 - 2 < 2 ^ 31 ∧
  generate_sequence 3 (2 ^ 31 - 2) (2 ^ 31 - 1) 1 ≠ Done [2 ^ 31 - 2; 2 ^ 31 - 1].
Proof.
  split; [lia|].
  apply (generate_sequence_int_max 3 (2 ^ 31 - 2) 1 [2 ^ 31 - 2; 2 ^ 31 - 1]). lia.
Defined.

End SequenceFacts.

(** ** string::trim *)

Module TrimFacts.
Import Stdlib.Strings.Ascii.
Import Trim.

Lemma skip_front_spec (str : list ascii) :
  skip_front str ≤ length str ∧
  Forall (λ c, isspace c = true) (take (skip_front str) str) ∧
  ∀ c, str !! skip_front str = Some c → isspace c = false.
Proof.
  induction str as [|c str (IH1 & IH2 & IH3)]; simpl.
  - split; [lia|]. split; [constructor | done].
  - destruct (isspace c) eqn:Hc; simpl.
    + split; [lia|]. split; [by constructor | done].
    + split; [lia|]. split; [constructor|]. by intros ? [= <-].
Qed.

Lemma back_off_spec (str : list ascii) (start stop : nat) :
  back_off str start stop ≤ stop ∧
  (start ≤ stop → start ≤ back_off str start stop) ∧
  (∀ j, back_off str start stop ≤ j < stop → isspace_at str j = true) ∧
  (start + 1 < back_off str start stop →
   isspace_at str (back_off str start stop - 1) = false).
Proof.
  induction stop as [|e (IH1 & IH2 & IH3 & IH4)]; simpl.
  - repeat split; intros; lia.
  - case_bool_decide as Hlt; simpl.
    + destruct (isspace_at str e) eqn:Hsp.
      * split; [lia|]. split; [intros; apply IH2; lia|]. split; [|done].
        intros j Hj. destruct (decide (j = e)) as [->|]; [done|].
        apply IH3. lia.
      * split; [lia|]. split; [done|]. split; [intros; lia|].
        intros _. by replace (S e - 1) with e by lia.
    + repeat split; (done || intros; lia).
Qed.

(** A string that neither starts nor ends with a space is left as it is. *)
Lemma trim_fixed (r : list ascii) :
  (∀ c, head r = Some c → isspace c = false) →
  (∀ c, last r = Some c → isspace c = false) →
  trim r = r.
Proof.
  intros Hhead Hlast. unfold trim.
  assert (skip_front r = 0) as ->.
  { destruct r as [|c r]; [done|]. simpl. by rewrite (Hhead c eq_refl). }
  assert (back_off r 0 (length r) = length r) as ->.
  { destruct (length r) as [|e] eqn:Hlen; [done|]. simpl.
    assert (isspace_at r e = false) as ->.
    { unfold isspace_at. destruct (r !! e) as [c|] eqn:Hc; [|done]. simpl.
      apply Hlast. by rewrite last_lookup, Hlen. }
    by rewrite andb_false_r. }
  rewrite drop_0, Nat.sub_0_r. by apply take_ge.
Qed.

(** [trim] removes a run of white space from the front of the string and one
    from the back.  What is left neither starts nor ends with a space, it is
    empty exactly when the string has nothing but spaces (the empty string
    included), and trimming it again changes nothing. *)
Theorem trim_spec (str : list ascii) :
  (∃ front back,
     str = front ++ trim str ++ back ∧
     Forall (λ c, isspace c = true) front ∧
     Forall (λ c, isspace c = true) back) ∧
  (∀ c, head (trim str) = Some c → isspace c = false) ∧
  (∀ c, last (trim str) = Some c → isspace c = false) ∧
  (trim str = [] ↔ Forall (λ c, isspace c = true) str) ∧
  trim (trim str) = trim str.
Proof.
  destruct (skip_front_spec str) as (Hs1 & Hs2 & Hs3).
  destruct (back_off_spec str (skip_front str) (length str)) as (Hb1 & Hb2 & Hb3 & Hb4).
  specialize (Hb2 Hs1). unfold trim.
  set (start := skip_front str) in *.
  set (stop := back_off str start (length str)) in *.
  set (r := take (stop - start) (drop start str)).
  assert (str = take start str ++ r ++ drop (stop - start) (drop start str)) as Hstr
    by (unfold r; by rewrite take_drop, take_drop).
  assert (Forall (λ c, isspace c = true) (drop (stop - start) (drop start str))) as Hback.
  { apply Forall_lookup. intros j c Hj. rewrite !lookup_drop in Hj.
    assert (start + (stop - start + j) < length str) as Hin
      by (by eapply lookup_lt_Some).
    pose proof (Hb3 (start + (stop - start + j)) ltac:(lia)) as Hsp.
    unfold isspace_at in Hsp. by rewrite Hj in Hsp. }
  assert (∀ c, head r = Some c → isspace c = false) as Hhead.
  { intros c Hc. apply Hs3. unfold r in Hc. rewrite head_lookup in Hc.
    apply lookup_take_Some in Hc as [Hc _].
    by rewrite lookup_drop, Nat.add_0_r in Hc. }
  assert (∀ c, last r = Some c → isspace c = false) as Hlast.
  { intros c Hc. unfold r in Hc.
    rewrite last_lookup, length_take, length_drop in Hc.
    apply lookup_take_Some in Hc as [Hc Hlt]. rewrite lookup_drop in Hc.
    replace (start + Init.Nat.pred ((stop - start) `min` (length str - start)))
      with (stop - 1) in Hc by lia.
    destruct (decide (start + 1 < stop)) as [Hlt'|Hge].
    - pose proof (Hb4 Hlt') as Hsp. unfold isspace_at in Hsp. by rewrite Hc in Hsp.
    - apply Hs3. by replace start with (stop - 1) by lia. }
  split; [by exists (take start str), (drop (stop - start) (drop start str))|].
  split; [done|]. split; [done|]. split; [|by apply trim_fixed].
  split.
  - intros Hr. rewrite Hstr, Hr. simpl. by apply Forall_app.
  - intros Hall. destruct r as [|c r'] eqn:Hr; [done|].
    assert (isspace c = true) as Hc.
    { rewrite Forall_forall in Hall. apply Hall. rewrite Hstr.
      apply elem_of_app. right. by left. }
    rewrite (Hhead c eq_refl) in Hc. discriminate.
Qed.

Example trim_example :
  trim (String.list_ascii_of_string "  a b ") = String.list_ascii_of_string "a b" ∧
  trim (String.list_ascii_of_string "   ") = [] ∧
  trim [] = [].
Proof. vm_compute. done. Qed.

End TrimFacts.

(** ** net::parse_query_string *)

Module QueryFacts.
Import Stdlib.Strings.Ascii Stdlib.NArith.BinNat.
Import StringUtil StringFacts Net NetFacts Query.

Section SingleCharacter.
Context {C : Type} `{EqDecision C}.

Lemma split_pieces fuel (str d : list C) : split fuel str d = pieces fuel d str.
Proof.
  unfold split. rewrite split_loop_pieces by lia. rewrite drop_0.
  by destruct (pieces fuel d str).
Qed.

Lemma find_first_char_None (c : C) (p : list C) : c ∉ p → find_first [c] p = None.
Proof.
  induction p as [|x p IH]; simpl; [done|].
  rewrite not_elem_of_cons. intros [Hx Hp]. case_bool_decide as Hpre.
  - by apply prefix_cons_inv_1 in Hpre.
  - by rewrite IH.
Qed.

Lemma find_first_char_Some (c : C) (p rest : list C) :
  c ∉ p → find_first [c] (p ++ c :: rest) = Some (length p).
Proof.
  induction p as [|x p IH]; simpl.
  - intros _. rewrite bool_decide_eq_true_2; [done|].
    apply prefix_cons, prefix_nil.
  - rewrite not_elem_of_cons. intros [Hx Hp]. case_bool_decide as Hpre.
    + by apply prefix_cons_inv_1 in Hpre.
    + by rewrite IH.
Qed.

(** Cutting at a single character undoes joining with it, when the character
    is in none of the strings joined. *)
Lemma pieces_join_char (c : C) (ps : list (list C)) :
  ps ≠ [] → Forall (λ p, c ∉ p) ps →
  ∀ fuel, length (join ps [c]) < fuel → pieces fuel [c] (join ps [c]) = Some ps.
Proof.
  induction ps as [|p ps IH]; [done|]. intros _ Hall fuel Hfuel.
  apply Forall_cons in Hall as [Hp Hall].
  destruct ps as [|q ps].
  - simpl in *. destruct fuel; simpl; by rewrite find_first_char_None.
  - rewrite join_cons in Hfuel |- * by done.
    remember (join (q :: ps) [c]) as J eqn:HJ.
    rewrite length_app in Hfuel. simpl in Hfuel.
    destruct fuel as [|fuel]; [lia|]. simpl.
    rewrite find_first_char_Some by done. simpl.
    rewrite take_app_length.
    replace (drop (length p + 1) (p ++ c :: J)) with J.
    + subst J. rewrite IH; [done | done | done | lia].
    + rewrite (cons_middle c p J), app_assoc.
      replace (length p + 1) with (length (p ++ [c]))
        by (rewrite length_app; simpl; lia).
      by rewrite drop_app_length.
Qed.

Lemma join_length_elem (d p : list C) (ps : list (list C)) :
  p ∈ ps → length p ≤ length (join ps d).
Proof.
  induction ps as [|q ps IH]; [by rewrite elem_of_nil|].
  destruct ps as [|q' ps].
  - rewrite list_elem_of_singleton. by intros ->.
  - rewrite join_cons by done. rewrite !length_app.
    rewrite elem_of_cons. intros [->|Hin]; [lia|].
    specialize (IH Hin). lia.
Qed.

End SingleCharacter.

Lemma encoded_without (c : ascii) (s : list ascii) :
  unreserved c = false → c ≠ "%"%char → c ∉ url_encode s.
Proof.
  intros Hc Hp Hin. pose proof (url_encode_chars s) as Hall.
  rewrite Forall_forall in Hall. destruct (Hall c Hin) as [Hu|Hu]; congruence.
Qed.

Section Parse.
Variable extract_hex : list ascii → option Z.
Hypothesis extract_hex_digits_ok : ∀ a b : N,
  (a < 16)%N → (b < 16)%N →
  extract_hex [hex_digit a; hex_digit b] = Some (Z.of_N (16 * a + b)).

Lemma add_pair_encoded fuel m (k v : list ascii) :
  length (url_encode k ++ "="%char :: url_encode v) < fuel →
  add_pair extract_hex fuel (Some m) (url_encode k ++ "="%char :: url_encode v)
  = Some (<[k := v]> m).
Proof.
  intros Hfuel. unfold add_pair. simpl.
  assert (url_encode k ++ "="%char :: url_encode v
          = join [url_encode k; url_encode v] ["="%char]) as Hj by done.
  rewrite split_pieces, Hj, pieces_join_char; [| done | | by rewrite <-Hj].
  - simpl. by rewrite !(decode_encode_id extract_hex extract_hex_digits_ok).
  - repeat constructor; by apply encoded_without.
Qed.

Lemma add_pairs_encoded fuel (kvs : list (list ascii * list ascii)) m :
  Forall (λ kv, length (url_encode kv.1 ++ "="%char :: url_encode kv.2) < fuel) kvs →
  foldl (add_pair extract_hex fuel) (Some m)
        ((λ kv, url_encode kv.1 ++ "="%char :: url_encode kv.2) <$> kvs)
  = Some (foldl (λ m kv, <[kv.1 := kv.2]> m) m kvs).
Proof.
  revert m. induction kvs as [|[k v] kvs IH]; intros m Hall; [done|].
  apply Forall_cons in Hall as [Hkv Hall].
  rewrite fmap_cons. cbn [foldl fst snd] in *.
  rewrite add_pair_encoded by done. by apply IH.
Qed.

Lemma foldl_insert_list_to_map (kvs : list (list ascii * list ascii)) :
  foldl (λ m kv, <[kv.1 := kv.2]> m) (∅ : gmap (list ascii) (list ascii)) kvs
  = list_to_map (reverse kvs).
Proof.
  induction kvs as [|[k v] kvs IH] using rev_ind; [done|].
  rewrite foldl_snoc, reverse_snoc, IH. done.
Qed.

(** A query string written from a list of pairs parses back to the map of
    those pairs, a later pair replacing an earlier one with the same key. *)
Theorem parse_query_of (kvs : list (list ascii * list ascii)) (fuel : nat) :
  length (query_of kvs) < fuel →
  parse_query_string extract_hex fuel (query_of kvs) = Some (list_to_map (reverse kvs)).
Proof.
  intros Hfuel. unfold parse_query_string.
  destruct kvs as [|kv kvs].
  { destruct fuel; [simpl in Hfuel; lia|]. reflexivity. }
  unfold query_of in *.
  set (pairs := (λ kv, url_encode kv.1 ++ "="%char :: url_encode kv.2) <$> kv :: kvs) in *.
  rewrite split_pieces, pieces_join_char; [| done | | done].
  - change (foldl (add_pair extract_hex fuel) (Some ∅) pairs
            = Some (list_to_map (reverse (kv :: kvs)))).
    unfold pairs. rewrite add_pairs_encoded.
    + by rewrite foldl_insert_list_to_map.
    + apply Forall_forall. intros kv' Hin.
      eapply Nat.le_lt_trans; [|exact Hfuel].
      apply join_length_elem. unfold pairs.
      apply (list_elem_of_fmap_2
               (λ kv, url_encode kv.1 ++ "="%char :: url_encode kv.2)), Hin.
  - unfold pairs. apply Forall_fmap, Forall_forall. intros kv' _. simpl.
    rewrite not_elem_of_app, not_elem_of_cons.
    split; [by apply encoded_without|].
    split; [done | by apply encoded_without].
Qed.

End Parse.

(** Pairs without exactly one [=] are dropped without notice. *)
Example parse_query_dropped :
  parse_query_string extract_hex_digits 40
    (String.list_ascii_of_string "a=1&b&c=2=3&a=4&=")
  = Some (<[String.list_ascii_of_string "" := String.list_ascii_of_string ""]>
          (<[String.list_ascii_of_string "a" := String.list_ascii_of_string "4"]> ∅)).
Proof. vm_compute. reflexivity. Qed.

Lemma parse_query_of_witness :
  (∀ a b : N, (a < 16)%N → (b < 16)%N →
     extract_hex_digits [hex_digit a; hex_digit b] = Some (Z.of_N (16 * a + b))) ∧
  length (query_of [(String.list_ascii_of_string "k 1", String.list_ascii_of_string "a&b");
                    (String.list_ascii_of_string "x", String.list_ascii_of_string "=")])
    < 40 ∧
  parse_query_string extract_hex_digits 40
    (query_of [(String.list_ascii_of_string "k 1", String.list_ascii_of_string "a&b");
               (String.list_ascii_of_string "x", String.list_ascii_of_string "=")])
  = Some (list_to_map
            (reverse [(String.list_ascii_of_string "k 1", String.list_ascii_of_string "a&b");
                      (String.list_ascii_of_string "x", String.list_ascii_of_string "=")])).
Proof.
  split; [exact extract_hex_digits_spec|].
  split; [vm_compute; lia|].
  apply (parse_query_of extract_hex_digits extract_hex_digits_spec).
  vm_compute. lia.
Defined.

End QueryFacts.

(** ** array::remove_duplicates *)

Module DedupFacts.
Import Dedup.
Local Open Scope Z_scope.

Lemma unique_from_spec (kept : Z) (l : list Z) :
  Sorted Z.le (kept :: l) →
  Sorted Z.lt (kept :: unique_from kept l) ∧
  ∀ x, x ∈ kept :: unique_from kept l ↔ x ∈ kept :: l.
Proof.
  revert kept. induction l as [|y l IH]; intros kept Hs; simpl.
  - split; [by repeat constructor | done].
  - apply Sorted_inv in Hs as [Hs Hhd]. apply HdRel_inv in Hhd.
    destruct (decide (kept = y)) as [<-|Hne].
    + destruct (IH kept Hs) as [IH1 IH2]. split; [done|].
      intros x. rewrite IH2, !elem_of_cons. tauto.
    + destruct (IH y Hs) as [IH1 IH2]. split.
      * constructor; [done|]. constructor. lia.
      * intros x. rewrite (elem_of_cons (y :: unique_from y l)), IH2.
        by rewrite <-!elem_of_cons.
Qed.

Section RemoveDuplicates.
Variable sort : list Z → list Z.

(** What [std::sort] guarantees. *)
Hypothesis sort_sorted : ∀ l, Sorted Z.le (sort l).
Hypothesis sort_permutation : ∀ l, sort l ≡ₚ l.

(** [remove_duplicates] does not keep the order of the data: it leaves the
    distinct values in strictly ascending order, every value of the data once
    and no other. *)
Theorem remove_duplicates_sorted (data : list Z) :
  Sorted Z.lt (remove_duplicates sort data) ∧
  NoDup (remove_duplicates sort data) ∧
  ∀ x, x ∈ remove_duplicates sort data ↔ x ∈ data.
Proof.
  unfold remove_duplicates.
  assert (Sorted Z.lt (unique (sort data)) ∧ ∀ x, x ∈ unique (sort data) ↔ x ∈ data)
    as [Hs Hin].
  { pose proof (sort_sorted data) as Hsorted.
    pose proof (sort_permutation data) as Hperm.
    destruct (sort data) as [|y l] eqn:E; simpl.
    - split; [constructor|]. intros x. by rewrite <-Hperm.
    - destruct (unique_from_spec y l Hsorted) as [H1 H2].
      split; [done|]. intros x. by rewrite H2, Hperm. }
  split; [done|]. split; [|done].
  apply Sorted_StronglySorted in Hs; [|intros ???; lia].
  clear Hin. induction Hs as [|x l _ IH Hall]; constructor; [|done].
  intros Hx. rewrite Forall_forall in Hall. specialize (Hall x Hx). lia.
Qed.

End RemoveDuplicates.

Lemma remove_duplicates_sorted_witness :
  (∀ l, Sorted Z.le (merge_sort Z.le l)) ∧
  (∀ l, merge_sort Z.le l ≡ₚ l) ∧
  remove_duplicates (merge_sort Z.le) [3; 1; 3; 2; 1] = [1; 2; 3] ∧
  Sorted Z.lt (remove_duplicates (merge_sort Z.le) [3; 1; 3; 2; 1]) ∧
  NoDup (remove_duplicates (merge_sort Z.le) [3; 1; 3; 2; 1]) ∧
  ∀ x, x ∈ remove_duplicates (merge_sort Z.le) [3; 1; 3; 2; 1] ↔ x ∈ [3; 1; 3; 2; 1].
Proof.
  assert (∀ l, Sorted Z.le (merge_sort Z.le l)) as H1
    by (intros l; apply (Sorted_merge_sort Z.le)).
  assert (∀ l, merge_sort Z.le l ≡ₚ l) as H2
    by (intros l; apply merge_sort_Permutation).
  split; [exact H1|]. split; [exact H2|]. split; [vm_compute; reflexivity|].
  apply (remove_duplicates_sorted (merge_sort Z.le) H1 H2).
Defined.

End DedupFacts.
